(** * Verification of the chapterizer core (src/chapterizer.ts)

    Shallow embedding of the three parts of the program that carry state or
    computation: the [KeyFrame] parser (its constructor and regular
    expression), the [KeyFrameCollector] (its text buffer, the matching loop
    of [write], [close], [abort] and [filterFrames]) and
    [KeyFrameCollection.generateChapterMetadata].

    Modelling choices:
    - text is [list ascii]; the analysis process writes ASCII, on which
      [TextDecoder.decode] is the identity, so a decoded chunk is its bytes;
    - the two regular expressions are embedded as the backtracking search a
      JavaScript engine performs for them: the leftmost start position, then
      each greedy [.*] tries the longest length first, each greedy [\d+] the
      longest digit run first; the flag [s] lets [.] match any character;
    - the numbers of the program are JavaScript Numbers (binary64); the ones
      it computes are non-negative integers or +Infinity, represented in [N]
      (see [Infinity]); [parseInt] rounds the value of a digit run to a
      Number, [`${n}`] is [Number::toString], with its exponent form from
      10^21 on;
    - a thrown [Error] is the [None] result of a function, or the error
      component of the collector's step. *)

From Stdlib Require Import List Ascii String Bool Arith Lia ZArith NArith.
From Stdlib Require Import Sorting.Sorted DecimalN.
Import ListNotations.

Open Scope list_scope.

(** ** Text *)

Definition text := list ascii.

(** A string literal as text. *)
Definition lit (s : string) : text := list_ascii_of_string s.

Fixpoint prefixb (p s : text) : bool :=
  match p, s with
  | [], _ => true
  | c :: p', d :: s' => Ascii.eqb c d && prefixb p' s'
  | _ :: _, [] => false
  end.

(** [at_pos s i p]: the text [p] occurs in [s] at index [i]. *)
Definition at_pos (s : text) (i : nat) (p : text) : bool :=
  prefixb p (skipn i s).

(** The class [\d] (the flag [u] does not widen it). *)
Definition is_digit (c : ascii) : bool :=
  (48 <=? nat_of_ascii c) && (nat_of_ascii c <=? 57).

(** Length of the longest run of digits at the head of a text. *)
Fixpoint digit_run (s : text) : nat :=
  match s with
  | c :: s' => if is_digit c then S (digit_run s') else 0
  | [] => 0
  end.

(** ** Backtracking search *)

(** [down f k] tries [f k], [f (k-1)], ..., [f 0] and returns the first
    success: the order in which a greedy quantifier tries its lengths. *)
Fixpoint down {A} (f : nat -> option A) (k : nat) : option A :=
  match f k with
  | Some a => Some a
  | None => match k with 0 => None | S k' => down f k' end
  end.

(** [up f i k] tries [f i], [f (i+1)], ..., [f (i+k)]: the order in which
    [String.prototype.match] tries start positions. *)
Fixpoint up {A} (f : nat -> option A) (i k : nat) : option A :=
  match f i with
  | Some a => Some a
  | None => match k with 0 => None | S k' => up f (S i) k' end
  end.

(** ** Numbers *)

Definition digit_char (d : nat) : ascii := ascii_of_nat (48 + d).

Fixpoint show_uint (d : Decimal.uint) : text :=
  match d with
  | Decimal.Nil => []
  | Decimal.D0 d => digit_char 0 :: show_uint d
  | Decimal.D1 d => digit_char 1 :: show_uint d
  | Decimal.D2 d => digit_char 2 :: show_uint d
  | Decimal.D3 d => digit_char 3 :: show_uint d
  | Decimal.D4 d => digit_char 4 :: show_uint d
  | Decimal.D5 d => digit_char 5 :: show_uint d
  | Decimal.D6 d => digit_char 6 :: show_uint d
  | Decimal.D7 d => digit_char 7 :: show_uint d
  | Decimal.D8 d => digit_char 8 :: show_uint d
  | Decimal.D9 d => digit_char 9 :: show_uint d
  end.

(** The leading digits of a text, as a decimal numeral. *)
Fixpoint read_uint (s : text) : Decimal.uint :=
  match s with
  | [] => Decimal.Nil
  | c :: s' =>
      match nat_of_ascii c - 48, is_digit c with
      | 0, true => Decimal.D0 (read_uint s')
      | 1, true => Decimal.D1 (read_uint s')
      | 2, true => Decimal.D2 (read_uint s')
      | 3, true => Decimal.D3 (read_uint s')
      | 4, true => Decimal.D4 (read_uint s')
      | 5, true => Decimal.D5 (read_uint s')
      | 6, true => Decimal.D6 (read_uint s')
      | 7, true => Decimal.D7 (read_uint s')
      | 8, true => Decimal.D8 (read_uint s')
      | 9, true => Decimal.D9 (read_uint s')
      | _, _ => Decimal.Nil
      end
  end.

(** The decimal numeral of [n], without leading zeros. *)
Definition show_N (n : N) : text := show_uint (N.to_uint n).

(** *** JavaScript Numbers

    The Numbers the program computes are the results of [parseInt] on digit
    runs, non-negative integers or +Infinity, and the chapter numbers. Such a
    Number is represented by an [N]: a finite one by its value, +Infinity by
    [2^1024], which is above every finite Number. On this encoding the test
    [frame.pts_time - lastFrame.pts_time > 180] of [filterFrames] is the
    comparison of the exact difference, as [filter_loop] computes it: the
    difference of two integer Numbers, rounded, exceeds 180 exactly when the
    exact difference does (181 is a Number and rounding is monotone);
    [Infinity - x > 180] holds for a finite [x] as [2^1024 - x > 180] does,
    and [x - Infinity] and [Infinity - Infinity] (NaN) fail the test as
    [x - 2^1024] and [0] do. *)
Definition Infinity : N := (2 ^ 1024)%N.

(** A non-negative integer rounded to 53 significant bits, to nearest, ties
    to even: the binary64 rounding, before overflow. *)
Definition round53 (v : N) : N :=
  let e := (N.log2 v - 52)%N in
  let q := (v / 2 ^ e)%N in
  let r := (v mod 2 ^ e)%N in
  let up := ((2 ^ e <? 2 * r) || ((2 * r =? 2 ^ e) && N.odd q))%N in
  ((if up then q + 1 else q) * 2 ^ e)%N.

(** The Number value of a non-negative integer: rounded, and +Infinity once
    the rounded value reaches [2^1024]. *)
Definition Number_of_N (v : N) : N := N.min (round53 v) Infinity.

(** [parseInt] on a text that starts with a digit: the value of the leading
    digit run, as a Number. (The language lets an engine approximate after
    the 20th significant digit; V8, the engine of Deno, rounds correctly.) *)
Definition parseInt (s : text) : N := Number_of_N (N.of_uint (read_uint s)).

(** [Number::toString(x)] for a Number [x] of the program, as [`${x}`]
    computes it. Step 5 of the algorithm chooses integers [s], [k], [n] with
    [10^(k-1) <= s < 10^k], [s * 10^(n-k)] of Number value [x], [k] as small
    as possible, and, as V8 does, following the recommended refinement, the
    [s] with [s * 10^(n-k)] closest to [x], the even one on a tie. For an
    integer [x >= 1] the chosen [s * 10^(n-k)] is an integer ([n >= k]): [x]
    itself is a candidate with no more digits than any fractional one, and
    closer than any with as many. The candidates [(s, e)], [e = n - k], are
    searched as [s = x / 10^e] or [s = x / 10^e + 1] for [e] up to the
    number of digits of [x]: the closest [s] of a given [e] is one of them. *)
Definition ts_candidates (x : N) : list (N * N) :=
  flat_map (fun e =>
    filter (fun c => ((0 <? fst c) && (Number_of_N (fst c * 10 ^ snd c) =? x))%N)
      [(x / 10 ^ e, e); (x / 10 ^ e + 1, e)]%N)
    (map N.of_nat (seq 0 (S (List.length (show_N x))))).

(** [c1] is preferred to [c2]: fewer digits, then closer to [x], then even. *)
Definition ts_better (x : N) (c1 c2 : N * N) : bool :=
  let k1 := List.length (show_N (fst c1)) in
  let k2 := List.length (show_N (fst c2)) in
  let v1 := (fst c1 * 10 ^ snd c1)%N in
  let v2 := (fst c2 * 10 ^ snd c2)%N in
  let d1 := (N.max v1 x - N.min v1 x)%N in
  let d2 := (N.max v2 x - N.min v2 x)%N in
  (k1 <? k2) || ((k1 =? k2) && ((d1 <? d2)%N || ((d1 =? d2)%N && N.even (fst c1)))).

Fixpoint ts_best (x : N) (best : N * N) (cs : list (N * N)) : N * N :=
  match cs with
  | [] => best
  | c :: cs' => ts_best x (if ts_better x c best then c else best) cs'
  end.

(** Step 10, [n > 21]: the first digit of [s], then a point and the other
    digits when there are any, then [e+] and [n - 1]. *)
Definition exp_form (ds : text) (n : nat) : text :=
  match ds with
  | [] => []
  | a :: rest =>
    a :: match rest with [] => [] | _ => "."%char :: rest end ++
    lit "e+" ++ show_N (N.of_nat (n - 1))
  end.

(** Steps 2 and 4 give ["0"] and ["Infinity"]; step 7, [n <= 21], which is
    [s * 10^(n-k) < 10^21], gives the digits of [s] followed by [n - k]
    zeros, the numeral of [s * 10^(n-k)]. An [N] that is not a Number value
    has no candidate; it is never a value of the program. *)
Definition Number_toString (x : N) : text :=
  if (x =? 0)%N then lit "0"
  else if (Infinity <=? x)%N then lit "Infinity"
  else match ts_candidates x with
       | [] => show_N x
       | c :: cs =>
         let '(s, e) := ts_best x c cs in
         if (s * 10 ^ e <? 10 ^ 21)%N then show_N (s * 10 ^ e)
         else exp_form (show_N s) (List.length (show_N s) + N.to_nat e)
       end.

(** ** [KeyFrame] *)

Record KeyFrame := mkKF { pts_time : N; pkt_pos : N }.

(** [KeyFrame.frameRegEX = /.*pts_time=(\d+).*pkt_pos=(\d+).*/su]: the
    result is the pair of captured digit runs. *)
Definition frameRegEX_match (s : text) : option (text * text) :=
  let n := List.length s in
  up (fun st =>
    (* .* greedy, then pts_time= *)
    down (fun l1 =>
      let p := st + l1 in
      if at_pos s p (lit "pts_time=") then
        let d1 := p + 9 in
        match digit_run (skipn d1 s) with
        | 0 => None
        | S r1 =>
          (* (\d+) greedy *)
          down (fun k1' =>
            let k1 := S k1' in
            let after1 := d1 + k1 in
            (* .* greedy, then pkt_pos= *)
            down (fun l2 =>
              let q := after1 + l2 in
              if at_pos s q (lit "pkt_pos=") then
                let d2 := q + 8 in
                match digit_run (skipn d2 s) with
                | 0 => None
                | S r2 =>
                  (* (\d+) greedy, then .* which always matches *)
                  down (fun k2' =>
                    Some (firstn k1 (skipn d1 s), firstn (S k2') (skipn d2 s)))
                    r2
                end
              else None)
              (n - after1))
            r1
        end
      else None)
      (n - st))
    0 n.

(** [new KeyFrame(frameData)]: [None] is the thrown
    ["couldn't parse framedata"]. *)
Definition KeyFrame_new (frameData : text) : option KeyFrame :=
  match frameRegEX_match frameData with
  | Some (m1, m2) => Some (mkKF (parseInt m1) (parseInt m2))
  | None => None
  end.

(** ** [KeyFrameCollector] *)

(** A successful match of [frameRegEx]: start and end index of the matched
    text, capture group 1 and capture group 2. *)
Record FrameMatch := mkFM {
  m_start : nat; m_end : nat; m_body : text; m_flag : ascii }.

(** [frameRegEx] of the collector: the marker [[FRAME]], a captured group of
    any text (flag [s]) that contains [key_frame=] followed by one captured
    digit, then the marker [[/FRAME]]; as used by [String.prototype.match]
    and, for the same first match, by [String.prototype.replace]. *)
Definition frameRegEx_match (s : text) : option FrameMatch :=
  let n := List.length s in
  up (fun st =>
    if at_pos s st (lit "[FRAME]") then
      let b := st + 7 in
      (* .* greedy, then key_frame=(\d) *)
      down (fun l1 =>
        let p := b + l1 in
        if at_pos s p (lit "key_frame=") then
          match nth_error s (p + 10) with
          | Some d =>
            if is_digit d then
              (* .* greedy, then \[\/FRAME\] *)
              down (fun l2 =>
                let q := p + 11 + l2 in
                if at_pos s q (lit "[/FRAME]") then
                  Some (mkFM st (q + 8) (firstn (q - b) (skipn b s)) d)
                else None)
                (n - (p + 11))
            else None
          | None => None
          end
        else None)
        (n - b)
    else None)
    0 n.

(** [s.replace(frameRegEx, empty string)]: the first match cut out. *)
Definition remove_match (s : text) (m : FrameMatch) : text :=
  firstn (m_start m) s ++ skipn (m_end m) s.

Inductive error :=
| MalformedRecord          (* new Error("couldn't parse framedata") *)
| Upstream (reason : string).

(** The [while] loop of [write] on the buffer [buf] and the key frames
    [kfs]. The result is the buffer and the key frames when the loop ends,
    and the error thrown by [new KeyFrame], with the buffer and key frames
    at the moment of the throw. Every iteration cuts out a match, at least
    26 characters, so [S (length buf)] rounds always suffice (see
    [write_loop_fuel]); the [0] case is never reached from [write]. The
    progress dot written to stdout is not modelled. *)
Fixpoint write_loop (fuel : nat) (buf : text) (kfs : list KeyFrame)
  : text * list KeyFrame * option error :=
  match fuel with
  | 0 => (buf, kfs, None)
  | S fuel' =>
    match frameRegEx_match buf with
    | None => (buf, kfs, None)
    | Some m =>
      if Ascii.eqb (m_flag m) "1"%char then
        match KeyFrame_new (m_body m) with
        | None => (buf, kfs, Some MalformedRecord)
        | Some kf => write_loop fuel' (remove_match buf m) (kfs ++ [kf])
        end
      else write_loop fuel' (remove_match buf m) kfs
    end
  end.

Record KeyFrameCollection := mkCollection { coll_keyFrames : list KeyFrame }.

(** The state of the promise built in the constructor. *)
Inductive Deferred :=
| Pending
| Fulfilled (c : KeyFrameCollection)
| Rejected (e : error).

Record KeyFrameCollector := mkCollector {
  stringBuffer : text;
  keyFrames : list KeyFrame;
  completion : Deferred }.

Definition collector_new : KeyFrameCollector := mkCollector [] [] Pending.

(** [write(chunk)]: append the decoded chunk, then run the loop. *)
Definition write (c : KeyFrameCollector) (chunk : text)
  : KeyFrameCollector * option error :=
  let buf := stringBuffer c ++ chunk in
  match write_loop (S (List.length buf)) buf (keyFrames c) with
  | (buf', kfs', err) => (mkCollector buf' kfs' (completion c), err)
  end.

(** The chunks of a stream written one after the other; a write that
    throws errors the stream, and no further call reaches the sink. *)
Fixpoint write_all (c : KeyFrameCollector) (chunks : list text)
  : option KeyFrameCollector :=
  match chunks with
  | [] => Some c
  | ch :: chs =>
    match write c ch with
    | (c', None) => write_all c' chs
    | (_, Some _) => None
    end
  end.

(** [filterFrames]. [lastFrame] starts at [keyFrames[0]]; on the empty
    array it is [undefined] but the loop body never runs. *)
Fixpoint filter_loop (lastFrame : KeyFrame) (frames : list KeyFrame)
  : list KeyFrame :=
  match frames with
  | [] => []
  | frame :: rest =>
    if (Z.of_N (pts_time frame) - Z.of_N (pts_time lastFrame) >? 180)%Z
    then frame :: filter_loop frame rest
    else filter_loop lastFrame rest
  end.

Definition filterFrames (keyFrames : list KeyFrame) : list KeyFrame :=
  match keyFrames with
  | [] => []
  | first :: _ => filter_loop first keyFrames
  end.

(** JavaScript's [resolve] and [reject] do nothing on a settled promise. *)
Definition resolve (d : Deferred) (v : KeyFrameCollection) : Deferred :=
  match d with Pending => Fulfilled v | _ => d end.

Definition reject (d : Deferred) (e : error) : Deferred :=
  match d with Pending => Rejected e | _ => d end.

Definition close (c : KeyFrameCollector) : KeyFrameCollector :=
  mkCollector (stringBuffer c) (keyFrames c)
    (resolve (completion c) (mkCollection (filterFrames (keyFrames c)))).

Definition abort (c : KeyFrameCollector) (reason : error) : KeyFrameCollector :=
  mkCollector (stringBuffer c) (keyFrames c) (reject (completion c) reason).

(** ** [KeyFrameCollection.generateChapterMetadata] *)

Definition nl : text := [ascii_of_nat 10].

(** The text appended by one iteration of the loop. [indexOf(frame)] looks a
    frame up by reference; the frames of a collection are distinct objects
    (each is built once by [new KeyFrame] and pushed once), so it is the
    position [idx] of the current iteration. *)
Definition chapter_text (lastFrame : option KeyFrame) (idx : nat)
  (frame : KeyFrame) : text :=
  match lastFrame with
  | None =>
      lit "[CHAPTER]" ++ nl ++
      lit "TIMEBASE=1/1" ++ nl ++
      lit "START=0" ++ nl ++
      lit "END=" ++ Number_toString (pts_time frame) ++ nl ++
      lit "title=Chapter 1" ++ nl
  | Some lf =>
      lit "[CHAPTER]" ++ nl ++
      lit "TIMEBASE=1/1" ++ nl ++
      lit "START=" ++ Number_toString (pts_time lf) ++ nl ++
      lit "END=" ++ Number_toString (pts_time frame) ++ nl ++
      lit "title=Chapter " ++ Number_toString (N.of_nat (idx + 1)) ++ nl
  end.

Fixpoint gen_loop (chapterString : text) (lastFrame : option KeyFrame)
  (idx : nat) (frames : list KeyFrame) : text :=
  match frames with
  | [] => chapterString
  | frame :: rest =>
      gen_loop (chapterString ++ chapter_text lastFrame idx frame)
        (Some frame) (S idx) rest
  end.

Definition generateChapterMetadata (c : KeyFrameCollection) : text :=
  gen_loop (lit ";FFMETADATA1" ++ nl) None 0 (coll_keyFrames c).

(** ** Reading a chapter document back *)

(** The lines of a text, split at each line feed. *)
Fixpoint split_nl (s : text) : list text :=
  match s with
  | [] => [[]]
  | c :: s' =>
    if Ascii.eqb c (ascii_of_nat 10) then [] :: split_nl s'
    else match split_nl s' with
         | [] => [[c]]
         | l :: ls => (c :: l) :: ls
         end
  end.

Definition field_value (tag line : text) : option N :=
  if prefixb tag line then Some (parseInt (skipn (List.length tag) line))
  else None.

Definition field_values (tag : text) (lines : list text) : list N :=
  flat_map (fun l => match field_value tag l with
                     | Some v => [v] | None => [] end) lines.

(** The [(START, END)] pairs of a chapter document, in order. *)
Definition reparse (doc : text) : list (N * N) :=
  let ls := split_nl doc in
  combine (field_values (lit "START=") ls) (field_values (lit "END=") ls).

(** The chapters that the boundaries [ts] stand for: each boundary ends a
    chapter, which starts where the previous one ended, the first at [0]. *)
Fixpoint chapter_bounds (prev : N) (ts : list N) : list (N * N) :=
  match ts with
  | [] => []
  | t :: ts' => (prev, t) :: chapter_bounds t ts'
  end.

Definition kfs_of (ts : list N) : list KeyFrame :=
  map (fun t => mkKF t 0) ts.

(** ** Derived views used in the statements *)

(** The positions that [filterFrames] keeps, computed from the timestamps
    alone, by the same scan. *)
Fixpoint sel_loop (last : N) (i : nat) (ts : list N) : list nat :=
  match ts with
  | [] => []
  | t :: ts' =>
    if (Z.of_N t - Z.of_N last >? 180)%Z then i :: sel_loop t (S i) ts'
    else sel_loop last (S i) ts'
  end.

Definition selected_positions (ts : list N) : list nat :=
  match ts with
  | [] => []
  | t0 :: _ => sel_loop t0 0 ts
  end.

(** Text made of lines, each ended by a line feed. *)
Definition lines_text (ls : list text) : text := flat_map (fun l => l ++ nl) ls.

(** The lines appended by one iteration of [generateChapterMetadata]. *)
Definition chapter_lines (lastFrame : option KeyFrame) (idx : nat)
  (frame : KeyFrame) : list text :=
  [lit "[CHAPTER]"; lit "TIMEBASE=1/1";
   match lastFrame with
   | None => lit "START=0"
   | Some lf => lit "START=" ++ Number_toString (pts_time lf)
   end;
   lit "END=" ++ Number_toString (pts_time frame);
   match lastFrame with
   | None => lit "title=Chapter 1"
   | Some _ => lit "title=Chapter " ++ Number_toString (N.of_nat (idx + 1))
   end].

Fixpoint loop_lines (lastFrame : option KeyFrame) (idx : nat)
  (frames : list KeyFrame) : list text :=
  match frames with
  | [] => []
  | frame :: rest =>
      chapter_lines lastFrame idx frame ++ loop_lines (Some frame) (S idx) rest
  end.

(** [p] occurs somewhere in [s]. *)
Definition contains (s p : text) : bool :=
  existsb (fun i => at_pos s i p) (seq 0 (S (List.length s))).

(** Two descriptor blocks in the layout of the analysis process. *)
Definition block1 : text := lit "[FRAME]
key_frame=1
pts_time=0
pkt_pos=10
[/FRAME]
".

Definition block2 : text := lit "[FRAME]
key_frame=1
pts_time=300
pkt_pos=20
[/FRAME]
".

(** A key frame block without [pts_time], and a block that is not a key
    frame and carries no fields. *)
Definition block_no_pts : text := lit "[FRAME]
key_frame=1
pkt_pos=5
[/FRAME]
".

Definition block_not_key : text := lit "[FRAME]
key_frame=0
[/FRAME]
".

(** The two field names the [KeyFrame] parser looks for. *)
Definition pts_lit := lit "pts_time=".
Definition pos_lit := lit "pkt_pos=".

(** [b] is more than 180 time units after [a]. *)
Definition gap (a b : KeyFrame) : Prop :=
  (Z.of_N (pts_time a) + 180 < Z.of_N (pts_time b))%Z.

(** The line feed. *)
Definition nl_char : ascii := ascii_of_nat 10.

(** Where the chapter rendered after [lastFrame] starts. *)
Definition prev_end (lastFrame : option KeyFrame) : N :=
  match lastFrame with None => 0%N | Some lf => pts_time lf end.

(** [t] is a Number value below 10^21, which [`${t}`] writes in plain
    digits. *)
Definition plain_number (t : N) : Prop := Number_of_N t = t /\ (t < 10 ^ 21)%N.

(** A block that is not a key frame but carries both fields, and a key frame
    block that carries none. *)
Definition block_not_key_fields : text := lit "[FRAME]
key_frame=0
pts_time=5
pkt_pos=1
[/FRAME]
".

Definition block_key_bare : text := lit "[FRAME]
key_frame=1
[/FRAME]
".

(** The positions at which [p] occurs in [s]. *)
Definition occurrences (s p : text) : list nat :=
  filter (fun i => at_pos s i p) (seq 0 (S (List.length s))).

(** A descriptor text with a [pts_time] field of digits [D1] and, after it,
    a [pkt_pos] field of digits [D2]. *)
Definition fields_text (pre D1 mid D2 post : text) : text :=
  pre ++ lit "pts_time=" ++ D1 ++ mid ++ lit "pkt_pos=" ++ D2 ++ post.

(** ** The command line driver *)

(** The replacement text of [String.prototype.replace] with a string
    pattern (GetSubstitution): [$$] is [$], [$&] the matched text, [$`] the
    text before it, [$'] the text after it; any other [$] stays as it is
    (a string pattern has no capture groups). *)
Fixpoint expand_replacement (rep matched before after : text) : text :=
  match rep with
  | [] => []
  | c :: rest =>
    if Ascii.eqb c "$"%char then
      match rest with
      | d :: rest' =>
        if Ascii.eqb d "$"%char then
          "$"%char :: expand_replacement rest' matched before after
        else if Ascii.eqb d "&"%char then
          matched ++ expand_replacement rest' matched before after
        else if Ascii.eqb d "`"%char then
          before ++ expand_replacement rest' matched before after
        else if Ascii.eqb d "'"%char then
          after ++ expand_replacement rest' matched before after
        else c :: expand_replacement rest matched before after
      | [] => [c]
      end
    else c :: expand_replacement rest matched before after
  end.

(** [s.replace(pat, rep)] with a string [pat]: the first occurrence only. *)
Definition replace_first (s pat rep : text) : text :=
  match up (fun i => if at_pos s i pat then Some i else None) 0 (List.length s) with
  | Some i =>
    let before := firstn i s in
    let after := skipn (i + List.length pat) s in
    before ++ expand_replacement rep pat before after ++ after
  | None => s
  end.

(** [const destPath = sourcePath.replace(sourceDir, destDir)]. *)
Definition destPath (sourceDir destDir sourcePath : text) : text :=
  replace_first sourcePath sourceDir destDir.

(** ASCII case folding, as [/i] compares characters. *)
Definition fold_case (c : ascii) : ascii :=
  let n := nat_of_ascii c in
  if (65 <=? n) && (n <=? 90) then ascii_of_nat (n + 32) else c.

Fixpoint prefix_ci (p s : text) : bool :=
  match p, s with
  | [], _ => true
  | c :: p', d :: s' => Ascii.eqb (fold_case c) (fold_case d) && prefix_ci p' s'
  | _ :: _, [] => false
  end.

(** [new RegExp("(mp4|mkv)$", "i").test(path)], the filter [walk] applies to
    each entry path: at each start position, first the alternative [mp4],
    then [mkv], each followed by the end of the text. *)
Definition media_filter (path : text) : bool :=
  let n := List.length path in
  match up (fun i =>
         if prefix_ci (lit "mp4") (skipn i path) && (i + 3 =? n) then Some tt
         else if prefix_ci (lit "mkv") (skipn i path) && (i + 3 =? n) then Some tt
         else None) 0 n with
  | Some _ => true
  | None => false
  end.

(** * Properties *)

(** ** The backtracking search *)

Section Search.
Context {A : Type}.

Lemma down_found (f : nat -> option A) k i :
  i <= k -> f i <> None -> down f k <> None.
Proof.
  induction k as [|k IH]; intros Hi Hf; simpl.
  - assert (i = 0) by lia; subst. destruct (f 0); congruence.
  - destruct (f (S k)) eqn:E; [congruence|].
    destruct (Nat.eq_dec i (S k)) as [->|Hne]; [congruence|].
    apply IH; [lia|exact Hf].
Qed.

Lemma down_none (f : nat -> option A) k :
  (forall i, i <= k -> f i = None) -> down f k = None.
Proof.
  induction k as [|k IH]; intros H; simpl.
  - rewrite H; auto.
  - rewrite H by lia. apply IH. intros i Hi. apply H. lia.
Qed.

Lemma down_inv (f : nat -> option A) k b :
  down f k = Some b -> exists i, i <= k /\ f i = Some b.
Proof.
  induction k as [|k IH]; simpl; intros H.
  - exists 0. destruct (f 0); [split; auto|discriminate].
  - destruct (f (S k)) eqn:E.
    + exists (S k). inversion H; subst; auto.
    + destruct (IH H) as [i [Hi Hf]]. exists i. split; [lia|exact Hf].
Qed.

Lemma up_found (f : nat -> option A) i k j :
  i <= j <= i + k -> f j <> None -> up f i k <> None.
Proof.
  revert i. induction k as [|k IH]; intros i Hj Hf; simpl.
  - assert (j = i) by lia; subst. destruct (f i); congruence.
  - destruct (f i) eqn:E; [congruence|].
    destruct (Nat.eq_dec i j) as [->|Hne]; [congruence|].
    apply (IH (S i)); [lia|exact Hf].
Qed.

Lemma up_none (f : nat -> option A) i k :
  (forall j, i <= j <= i + k -> f j = None) -> up f i k = None.
Proof.
  revert i. induction k as [|k IH]; intros i H; simpl.
  - rewrite H; auto. lia.
  - rewrite H by lia. apply IH. intros j Hj. apply H. lia.
Qed.

Lemma up_inv (f : nat -> option A) i k b :
  up f i k = Some b -> exists j, i <= j <= i + k /\ f j = Some b.
Proof.
  revert i. induction k as [|k IH]; simpl; intros i H.
  - exists i. destruct (f i); [inversion H; subst; split; auto; lia|discriminate].
  - destruct (f i) eqn:E.
    + exists i. inversion H; subst. split; [lia|exact E].
    + destruct (IH (S i) H) as [j [Hj Hf]]. exists j. split; [lia|exact Hf].
Qed.

End Search.

(** ** Text positions *)

Lemma prefixb_app p r : prefixb p (p ++ r) = true.
Proof.
  induction p as [|c p IH]; simpl; auto.
  rewrite Ascii.eqb_refl. exact IH.
Qed.

Lemma prefixb_length p s : prefixb p s = true -> List.length p <= List.length s.
Proof.
  revert s. induction p as [|c p IH]; intros [|d s]; simpl; try lia; try discriminate.
  intros H. apply andb_prop in H as [_ H]. apply IH in H. lia.
Qed.

Lemma skipn_app_length (a r : text) k :
  skipn (List.length a + k) (a ++ r) = skipn k r.
Proof. induction a as [|c a IH]; simpl; auto. Qed.

Lemma at_pos_app (a p r : text) : at_pos (a ++ p ++ r) (List.length a) p = true.
Proof.
  unfold at_pos. rewrite <- (Nat.add_0_r (List.length a)), skipn_app_length.
  apply prefixb_app.
Qed.

Lemma at_pos_length s i p :
  p <> [] -> at_pos s i p = true -> i + List.length p <= List.length s.
Proof.
  unfold at_pos. intros Hp H. apply prefixb_length in H.
  rewrite length_skipn in H. destruct p; [congruence|simpl in *; lia].
Qed.

(** ** The [KeyFrame] parser *)


Lemma up_first {A} (f : nat -> option A) i k a : f i = Some a -> up f i k = Some a.
Proof. intros H. destruct k; simpl; rewrite H; reflexivity. Qed.

Lemma down_top {A} (f : nat -> option A) k i0 a :
  i0 <= k -> (forall i, i0 < i <= k -> f i = None) -> f i0 = Some a ->
  down f k = Some a.
Proof.
  induction k as [|k IH]; intros Hle Hnone Hf; simpl.
  - assert (i0 = 0) by lia. subst. rewrite Hf. reflexivity.
  - destruct (Nat.eq_dec i0 (S k)) as [->|Hne]; [rewrite Hf; reflexivity|].
    rewrite Hnone by lia. apply IH; [lia| |exact Hf].
    intros i Hi. apply Hnone. lia.
Qed.

Lemma firstn_app_exact (ds r : text) : firstn (List.length ds) (ds ++ r) = ds.
Proof.
  rewrite firstn_app, firstn_all, Nat.sub_diag. apply app_nil_r.
Qed.

Lemma digit_run_digits (ds r : text) :
  Forall (fun c => is_digit c = true) ds ->
  digit_run (ds ++ r) = List.length ds + digit_run r.
Proof. induction 1 as [|c ds Hc _ IH]; simpl; [reflexivity|]. rewrite Hc, IH. reflexivity. Qed.

Lemma digit_run_app_zero (m r : text) :
  digit_run m = 0 -> digit_run r = 0 -> digit_run (m ++ r) = 0.
Proof.
  destruct m as [|c m]; simpl; [auto|]. destruct (is_digit c); [discriminate|auto].
Qed.

Lemma at_pos_occurrences s i p :
  p <> [] -> at_pos s i p = true -> In i (occurrences s p).
Proof.
  intros Hp H. unfold occurrences. apply filter_In. split; [|exact H].
  apply at_pos_length in H; [|exact Hp]. apply in_seq.
  destruct p; [congruence|simpl in H; lia].
Qed.

Lemma occurrences_unique s p i j :
  p <> [] -> List.length (occurrences s p) = 1 ->
  at_pos s i p = true -> at_pos s j p = true -> i = j.
Proof.
  intros Hp Hl Hi Hj.
  apply (at_pos_occurrences _ _ _ Hp) in Hi, Hj.
  destruct (occurrences s p) as [|x [|y l]]; simpl in Hl; try discriminate.
  destruct Hi as [<-|[]], Hj as [<-|[]]. reflexivity.
Qed.

(** One [pts_time=] with its digits [D1], then one [pkt_pos=] with its
    digits [D2]: the match captures [D1] and [D2]. *)
Lemma frameRegEX_match_fields (pre D1 mid D2 post : text) :
  D1 <> [] -> D2 <> [] ->
  Forall (fun c => is_digit c = true) D1 -> Forall (fun c => is_digit c = true) D2 ->
  digit_run mid = 0 -> digit_run post = 0 ->
  List.length (occurrences (fields_text pre D1 mid D2 post) (lit "pts_time=")) = 1 ->
  List.length (occurrences (fields_text pre D1 mid D2 post) (lit "pkt_pos=")) = 1 ->
  frameRegEX_match (fields_text pre D1 mid D2 post) = Some (D1, D2).
Proof.
  intros HN1 HN2 HD1 HD2 Hmid Hpost Hop Hoq.
  set (s := fields_text pre D1 mid D2 post) in *.
  set (x := pre ++ lit "pts_time=" ++ D1 ++ mid).
  assert (Hs : s = x ++ lit "pkt_pos=" ++ D2 ++ post)
    by (unfold s, x, fields_text; rewrite <- !app_assoc; reflexivity).
  assert (Hlx : List.length x = List.length pre + 9 + List.length D1 + List.length mid)
    by (unfold x; rewrite !length_app; simpl; lia).
  assert (Hls : List.length s = List.length x + 8 + List.length D2 + List.length post)
    by (rewrite Hs, !length_app; simpl; lia).
  assert (Hp : at_pos s (List.length pre) (lit "pts_time=") = true)
    by apply at_pos_app.
  assert (Hq : at_pos s (List.length x) (lit "pkt_pos=") = true)
    by (rewrite Hs; apply at_pos_app).
  assert (Hsk1 : skipn (List.length pre + 9) s = D1 ++ mid ++ lit "pkt_pos=" ++ D2 ++ post)
    by (unfold s, fields_text; rewrite skipn_app_length; reflexivity).
  assert (Hsk2 : skipn (List.length x + 8) s = D2 ++ post)
    by (rewrite Hs, skipn_app_length; reflexivity).
  assert (HL1 : exists r1, List.length D1 = S r1)
    by (destruct D1; [contradiction|eexists; reflexivity]).
  assert (HL2 : exists r2, List.length D2 = S r2)
    by (destruct D2; [contradiction|eexists; reflexivity]).
  destruct HL1 as [r1 EL1], HL2 as [r2 EL2].
  unfold frameRegEX_match. fold s. rewrite (up_first _ 0 _ (D1, D2)); [reflexivity|].
  cbv beta zeta.
  apply (down_top _ _ (List.length pre)); [rewrite Hls, Hlx; lia| |].
  - intros i Hi. cbv beta.
    destruct (at_pos s (0 + i) (lit "pts_time=")) eqn:E; [|reflexivity].
    exfalso. pose proof (occurrences_unique _ (lit "pts_time=") _ _ ltac:(discriminate) Hop E Hp). lia.
  - cbv beta. rewrite Nat.add_0_l, Hp, Hsk1, digit_run_digits, EL1 by exact HD1.
    rewrite (digit_run_app_zero mid) by (exact Hmid || reflexivity). rewrite Nat.add_0_r.
    apply (down_top _ _ r1); [lia|intros; lia|]. cbv beta.
    replace (List.length pre + 9 + S r1) with (List.length x - List.length mid) by lia.
    apply (down_top _ _ (List.length mid)); [rewrite Hls; lia| |].
    + intros l2 Hl2.
      destruct (at_pos s (List.length x - List.length mid + l2) (lit "pkt_pos=")) eqn:E;
        [|reflexivity].
      exfalso. pose proof (occurrences_unique _ (lit "pkt_pos=") _ _ ltac:(discriminate) Hoq E Hq). lia.
    + replace (List.length x - List.length mid + List.length mid) with (List.length x) by lia.
      rewrite Hq, Hsk2, digit_run_digits, Hpost, EL2 by exact HD2. rewrite Nat.add_0_r.
      apply (down_top _ _ r2); [lia|intros; lia|].
      rewrite <- EL1, <- EL2, !firstn_app_exact. reflexivity.
Qed.

(** A match needs a [pts_time=] and, more than nine characters later, a
    [pkt_pos=]. *)
Lemma frameRegEX_match_order s r :
  frameRegEX_match s = Some r ->
  exists i j, at_pos s i (lit "pts_time=") = true /\
              at_pos s j (lit "pkt_pos=") = true /\ i + 9 < j.
Proof.
  unfold frameRegEX_match. intros H.
  apply up_inv in H as [st [_ H]]. cbv beta zeta in H.
  apply down_inv in H as [l1 [_ H]].
  destruct (at_pos s (st + l1) (lit "pts_time=")) eqn:Hp; [|discriminate].
  destruct (digit_run _); [discriminate|].
  apply down_inv in H as [k1 [_ H]]. apply down_inv in H as [l2 [_ H]].
  destruct (at_pos s (st + l1 + 9 + S k1 + l2) (lit "pkt_pos=")) eqn:Hq; [|discriminate].
  exists (st + l1), (st + l1 + 9 + S k1 + l2). split; [exact Hp|]. split; [exact Hq|lia].
Qed.

(** A text without [pts_time=] is rejected. *)
Lemma frameRegEX_match_no_pts s :
  (forall i, at_pos s i pts_lit = false) -> frameRegEX_match s = None.
Proof.
  intros H. unfold frameRegEX_match. apply up_none. intros j _. cbv beta zeta.
  apply down_none. intros i _. unfold pts_lit in H. rewrite H. reflexivity.
Qed.

(** A text without [pkt_pos=] is rejected. *)
Lemma frameRegEX_match_no_pos s :
  (forall i, at_pos s i pos_lit = false) -> frameRegEX_match s = None.
Proof.
  intros H. unfold frameRegEX_match. apply up_none. intros j _. cbv beta zeta.
  apply down_none. intros i _.
  destruct (at_pos s (j + i) (lit "pts_time=")); [|reflexivity].
  destruct (digit_run _); [reflexivity|].
  apply down_none. intros k _. apply down_none. intros l _.
  unfold pos_lit in H. rewrite H. reflexivity.
Qed.

(** ** The collector's matching loop *)

(** A match of [frameRegEx] lies inside the buffer and is not empty. *)
Lemma frameRegEx_match_bounds s m :
  frameRegEx_match s = Some m ->
  m_start m < m_end m /\ m_end m <= List.length s.
Proof.
  unfold frameRegEx_match. intros H.
  apply up_inv in H as [st [_ H]]. cbv beta zeta in H.
  destruct (at_pos s st (lit "[FRAME]")) eqn:Ho; [|discriminate].
  apply down_inv in H as [l1 [_ H]].
  destruct (at_pos s (st + 7 + l1) (lit "key_frame=")) eqn:Hk; [|discriminate].
  destruct (nth_error s (st + 7 + l1 + 10)); [|discriminate].
  destruct (is_digit a); [|discriminate].
  apply down_inv in H as [l2 [_ H]].
  destruct (at_pos s (st + 7 + l1 + 11 + l2) (lit "[/FRAME]")) eqn:Hc;
    [|discriminate].
  injection H as <-. simpl.
  apply at_pos_length in Hc; [|discriminate]. simpl in Hc. lia.
Qed.

Lemma remove_match_shorter s m :
  frameRegEx_match s = Some m ->
  List.length (remove_match s m) < List.length s.
Proof.
  intros H. apply frameRegEx_match_bounds in H as [H1 H2].
  unfold remove_match. rewrite length_app, length_firstn, length_skipn. lia.
Qed.

(** The loop always stops before its round bound: any bound above the
    buffer's length gives the same result. *)
Lemma write_loop_fuel f1 f2 buf kfs :
  List.length buf < f1 -> List.length buf < f2 ->
  write_loop f1 buf kfs = write_loop f2 buf kfs.
Proof.
  revert f2 buf kfs. induction f1 as [|f1 IH]; intros f2 buf kfs H1 H2;
    [lia|]. destruct f2 as [|f2]; [lia|]. simpl.
  destruct (frameRegEx_match buf) as [m|] eqn:Hm; [|reflexivity].
  pose proof (remove_match_shorter _ _ Hm) as Hlt.
  destruct (Ascii.eqb (m_flag m) "1"%char).
  - destruct (KeyFrame_new (m_body m)); [|reflexivity]. apply IH; lia.
  - apply IH; lia.
Qed.

Lemma write_completion c chunk : completion (fst (write c chunk)) = completion c.
Proof.
  unfold write. destruct (write_loop _ _ _) as [[b k] e]. reflexivity.
Qed.

Lemma write_all_completion c chunks c' :
  write_all c chunks = Some c' -> completion c' = completion c.
Proof.
  revert c. induction chunks as [|ch chs IH]; simpl; intros c H.
  - congruence.
  - destruct (write c ch) as [c1 [e|]] eqn:W; [discriminate|].
    rewrite (IH _ H). change c1 with (fst (c1, @None error)).
    rewrite <- W. apply write_completion.
Qed.

(** ** [filterFrames] *)

Lemma skipn_cons_nth {B} (l0 l : list B) i (f d : B) :
  skipn i l0 = f :: l -> nth i l0 d = f /\ skipn (S i) l0 = l.
Proof.
  revert l0. induction i as [|i IH]; intros [|g l0] H; simpl in *;
    try discriminate.
  - inversion H; subst; auto.
  - apply IH. exact H.
Qed.

Lemma filter_loop_positions l0 d l lastFrame i :
  skipn i l0 = l ->
  filter_loop lastFrame l =
  map (fun j => nth j l0 d) (sel_loop (pts_time lastFrame) i (map pts_time l)).
Proof.
  revert lastFrame i. induction l as [|f l IH]; intros lastFrame i H;
    simpl; auto.
  destruct (skipn_cons_nth _ _ _ _ d H) as [Hn Hs].
  destruct (Z.of_N (pts_time f) - Z.of_N (pts_time lastFrame) >? 180)%Z.
  - simpl. rewrite Hn. f_equal. apply IH. exact Hs.
  - apply IH. exact Hs.
Qed.

Lemma filterFrames_positions kfs d :
  filterFrames kfs =
  map (fun j => nth j kfs d) (selected_positions (map pts_time kfs)).
Proof.
  destruct kfs as [|k0 ks]; [reflexivity|].
  change (filterFrames (k0 :: ks)) with (filter_loop k0 (k0 :: ks)).
  change (selected_positions (map pts_time (k0 :: ks)))
    with (sel_loop (pts_time k0) 0 (map pts_time (k0 :: ks))).
  apply filter_loop_positions. reflexivity.
Qed.

Lemma sel_loop_bounds last i ts :
  Forall (fun j => i <= j) (sel_loop last i ts) /\ Sorted lt (sel_loop last i ts).
Proof.
  revert last i. induction ts as [|t ts IH]; intros last i; simpl.
  - split; constructor.
  - destruct (Z.of_N t - Z.of_N last >? 180)%Z.
    + destruct (IH t (S i)) as [Hge Hs]. split.
      * constructor; [lia|]. eapply Forall_impl; [|exact Hge]. simpl; lia.
      * constructor; [exact Hs|].
        destruct (sel_loop t (S i) ts); constructor.
        inversion Hge; lia.
    + destruct (IH last (S i)) as [Hge Hs]. split; [|exact Hs].
      eapply Forall_impl; [|exact Hge]. simpl; lia.
Qed.

Lemma selected_positions_bounds ts :
  Forall (fun j => 1 <= j) (selected_positions ts) /\
  Sorted lt (selected_positions ts).
Proof.
  destruct ts as [|t ts]; simpl; [split; constructor|].
  replace (Z.of_N t - Z.of_N t >? 180)%Z with false
    by (symmetry; rewrite Z.gtb_ltb; apply Z.ltb_ge; lia).
  apply sel_loop_bounds.
Qed.


Lemma filter_loop_gaps lastFrame l :
  Sorted gap (filter_loop lastFrame l) /\ HdRel gap lastFrame (filter_loop lastFrame l).
Proof.
  revert lastFrame. induction l as [|f l IH]; intros lastFrame; simpl.
  - split; constructor.
  - destruct (Z.of_N (pts_time f) - Z.of_N (pts_time lastFrame) >? 180)%Z eqn:E.
    + apply Z.gtb_lt in E. destruct (IH f) as [Hs Hh]. split.
      * constructor; assumption.
      * constructor. unfold gap. lia.
    + apply IH.
Qed.

Lemma filterFrames_gaps kfs : Sorted gap (filterFrames kfs).
Proof. destruct kfs as [|k ks]; [constructor|apply filter_loop_gaps]. Qed.

Lemma Sorted_weaken {B} (R1 R2 : B -> B -> Prop) l :
  (forall a b, R1 a b -> R2 a b) -> Sorted R1 l -> Sorted R2 l.
Proof.
  intros HR H. induction H as [|a l Hs IH Hh]; constructor; [exact IH|].
  destruct Hh; constructor. apply HR. assumption.
Qed.

(** ** [generateChapterMetadata] *)

Lemma chapter_text_lines lastFrame idx frame :
  chapter_text lastFrame idx frame = lines_text (chapter_lines lastFrame idx frame).
Proof.
  destruct lastFrame; unfold chapter_text, chapter_lines, lines_text; simpl;
    rewrite <- !app_assoc; reflexivity.
Qed.

Lemma lines_text_app l1 l2 : lines_text (l1 ++ l2) = lines_text l1 ++ lines_text l2.
Proof. unfold lines_text. apply flat_map_app. Qed.

Lemma gen_loop_lines acc lastFrame idx frames :
  gen_loop acc lastFrame idx frames = acc ++ lines_text (loop_lines lastFrame idx frames).
Proof.
  revert acc lastFrame idx. induction frames as [|f fs IH]; intros acc lastFrame idx;
    cbn [gen_loop loop_lines].
  - rewrite app_nil_r. reflexivity.
  - rewrite IH, lines_text_app, chapter_text_lines, app_assoc. reflexivity.
Qed.


Lemma split_nl_line l r :
  ~ In nl_char l -> split_nl (l ++ nl ++ r) = l :: split_nl r.
Proof.
  unfold nl. cbn [app]. induction l as [|c l IH]; intros H.
  - cbn [app split_nl]. rewrite Ascii.eqb_refl. reflexivity.
  - cbn [app split_nl]. destruct (Ascii.eqb c (ascii_of_nat 10)) eqn:E.
    + apply Ascii.eqb_eq in E. subst. elim H. left. reflexivity.
    + rewrite IH; [reflexivity|]. intros Hi. apply H. right. exact Hi.
Qed.

Lemma split_nl_lines ls r :
  Forall (fun l => ~ In nl_char l) ls ->
  split_nl (lines_text ls ++ r) = ls ++ split_nl r.
Proof.
  induction 1 as [|l ls Hl _ IH]; [reflexivity|].
  unfold lines_text in *. simpl. rewrite <- !app_assoc, split_nl_line by exact Hl.
  rewrite IH. reflexivity.
Qed.

Lemma show_uint_no_nl d : ~ In nl_char (show_uint d).
Proof.
  induction d; simpl; try tauto; intros [H|H]; try discriminate; tauto.
Qed.

Lemma read_show_uint d : read_uint (show_uint d) = d.
Proof. induction d; simpl; try rewrite IHd; reflexivity. Qed.

(** ** Numbers *)

Lemma round53_small v : (v < 2 ^ 53)%N -> round53 v = v.
Proof.
  intros H. unfold round53.
  assert (He : (N.log2 v - 52 = 0)%N).
  { destruct (N.eq_dec v 0) as [->|Hv]; [reflexivity|].
    apply N.log2_lt_pow2 in H; lia. }
  rewrite He. simpl. rewrite N.div_1_r, N.mod_1_r, N.mul_1_r. reflexivity.
Qed.

Lemma Number_of_N_small v : (v < 2 ^ 53)%N -> Number_of_N v = v.
Proof.
  intros H. unfold Number_of_N. rewrite round53_small by exact H.
  apply N.min_l. unfold Infinity.
  apply N.lt_le_incl, (N.lt_le_trans _ _ _ H). apply N.pow_le_mono_r; lia.
Qed.

Lemma round53_split v :
  let e := (N.log2 v - 52)%N in
  (v = (v / 2 ^ e) * 2 ^ e + v mod 2 ^ e /\ v mod 2 ^ e < 2 ^ e /\
   v / 2 ^ e < 2 ^ 53 /\ (0 < e -> 2 ^ 52 <= v / 2 ^ e))%N.
Proof.
  intros e.
  assert (Hp : (2 ^ e <> 0)%N) by (apply N.pow_nonzero; lia).
  split; [rewrite N.mul_comm; apply N.div_mod; exact Hp|].
  split; [apply N.mod_lt; exact Hp|].
  destruct (N.eq_dec v 0) as [->|Hv]; [rewrite N.Div0.div_0_l by exact Hp; split; [reflexivity|]; intros; unfold e in *; simpl in *; lia|].
  pose proof (N.log2_spec v ltac:(lia)) as [Hlo Hhi].
  split.
  - apply N.Div0.div_lt_upper_bound.
    rewrite <- N.pow_add_r. eapply N.lt_le_trans; [exact Hhi|].
    apply N.pow_le_mono_r; [lia|]. unfold e. lia.
  - intros He. apply N.div_le_lower_bound; [exact Hp|].
    rewrite <- N.pow_add_r. eapply N.le_trans; [|exact Hlo].
    apply N.pow_le_mono_r; [lia|]. unfold e. lia.
Qed.

Lemma round53_bounds v :
  let e := (N.log2 v - 52)%N in
  ((v / 2 ^ e) * 2 ^ e <= round53 v <= 2 ^ 53 * 2 ^ e)%N.
Proof.
  intros e. destruct (round53_split v) as [_ [_ [Hq _]]]. fold e in Hq.
  unfold round53. fold e.
  destruct (_ || _); split; apply N.mul_le_mono_r; lia.
Qed.

Lemma round53_mono v w : (v <= w)%N -> (round53 v <= round53 w)%N.
Proof.
  intros Hvw.
  pose proof (round53_split v) as [Ev [Rv [Qv Lv]]].
  pose proof (round53_split w) as [Ew [Rw [Qw Lw]]].
  pose proof (round53_bounds v) as Bv. pose proof (round53_bounds w) as Bw.
  cbv zeta in *.
  set (ev := (N.log2 v - 52)%N) in *. set (ew := (N.log2 w - 52)%N) in *.
  assert (Hle : (ev <= ew)%N) by (unfold ev, ew; pose proof (N.log2_le_mono v w Hvw); lia).
  destruct (N.lt_ge_cases ev ew) as [Hlt|Hge].
  - eapply N.le_trans; [apply Bv|]. eapply N.le_trans; [|apply Bw].
    rewrite <- N.pow_add_r. eapply N.le_trans; [|apply N.mul_le_mono_r, Lw; lia].
    rewrite <- N.pow_add_r. apply N.pow_le_mono_r; lia.
  - assert (E : (N.log2 w - 52 = N.log2 v - 52)%N) by (unfold ev, ew in *; lia).
    assert (Hq : (v / 2 ^ ev <= w / 2 ^ ev)%N) by (apply N.Div0.div_le_mono; exact Hvw).
    unfold round53. rewrite E. fold ev.
    unfold ew in Ew, Rw, Qw, Lw. rewrite E in Ew, Rw, Qw, Lw. fold ev in Ew, Rw, Qw, Lw.
    clear Bv Bw Lv Lw Hle Hge.
    set (qv := (v / 2 ^ ev)%N) in *. set (rv := (v mod 2 ^ ev)%N) in *.
    set (qw := (w / 2 ^ ev)%N) in *. set (rw := (w mod 2 ^ ev)%N) in *.
    set (P := (2 ^ ev)%N) in *.
    destruct (N.lt_ge_cases qv qw) as [Hlt|Hge].
    + apply N.mul_le_mono_r.
      destruct (_ || _), (_ || _); lia.
    + assert (qv = qw) as Eq by lia. rewrite <- Eq.
      assert (Hr : (rv <= rw)%N) by (rewrite <- Eq in Ew; nia).
      apply N.mul_le_mono_r.
      destruct (N.ltb_spec P (2 * rv)), (N.ltb_spec P (2 * rw)),
        (N.eqb_spec (2 * rv) P), (N.eqb_spec (2 * rw) P), (N.odd qv);
        simpl; lia.
Qed.

Lemma parseInt_show_N n : parseInt (show_N n) = Number_of_N n.
Proof.
  unfold parseInt, show_N. rewrite read_show_uint, DecimalN.Unsigned.of_to. reflexivity.
Qed.

Lemma Number_of_N_mono v w : (v <= w)%N -> (Number_of_N v <= Number_of_N w)%N.
Proof. intros H. unfold Number_of_N. apply N.min_le_compat_r, round53_mono, H. Qed.

Lemma ts_best_in x best cs : In (ts_best x best cs) (best :: cs).
Proof.
  revert best. induction cs as [|c cs IH]; intros best; simpl; [left; reflexivity|].
  destruct (ts_better x c best).
  - destruct (IH c) as [H|H]; [right; left; exact H|right; right; exact H].
  - destruct (IH best) as [H|H]; [left; exact H|right; right; exact H].
Qed.

Lemma ts_candidates_spec x s e :
  In (s, e) (ts_candidates x) -> (0 < s)%N /\ Number_of_N (s * 10 ^ e) = x.
Proof.
  unfold ts_candidates. rewrite in_flat_map. intros [e' [_ H]].
  apply filter_In in H as [_ H]. simpl in H.
  apply andb_prop in H as [H1 H2]. apply N.ltb_lt in H1. apply N.eqb_eq in H2.
  split; assumption.
Qed.

Lemma ts_candidates_self x :
  Number_of_N x = x -> (0 < x)%N -> In (x, 0%N) (ts_candidates x).
Proof.
  intros Hx Hp. unfold ts_candidates. apply in_flat_map. exists 0%N. split.
  - apply in_map_iff. exists 0. split; [reflexivity|]. apply in_seq. lia.
  - apply filter_In. simpl. rewrite N.div_1_r, N.mul_1_r, Hx, N.eqb_refl.
    split; [left; reflexivity|]. apply N.ltb_lt in Hp. rewrite Hp. reflexivity.
Qed.

(** Rendering a Number below 10^21 and reading it back gives the Number. *)
Lemma parseInt_Number_toString x :
  Number_of_N x = x -> (x < 10 ^ 21)%N -> parseInt (Number_toString x) = x.
Proof.
  intros Hx Hs. unfold Number_toString.
  destruct (N.eqb_spec x 0) as [->|H0]; [reflexivity|].
  replace (Infinity <=? x)%N with false
    by (symmetry; apply N.leb_gt; eapply N.lt_trans; [exact Hs|reflexivity]).
  pose proof (ts_candidates_self x Hx ltac:(lia)) as Hin.
  destruct (ts_candidates x) as [|c cs] eqn:Ec; [contradiction|].
  pose proof (ts_best_in x c cs) as Hb. rewrite <- Ec in Hb.
  destruct (ts_best x c cs) as [s e].
  apply ts_candidates_spec in Hb as [_ Hv].
  destruct (N.ltb_spec (s * 10 ^ e) (10 ^ 21)) as [Hl|Hl].
  - rewrite parseInt_show_N. exact Hv.
  - exfalso. apply Number_of_N_mono in Hl.
    replace (Number_of_N (10 ^ 21)) with (10 ^ 21)%N in Hl by (vm_compute; reflexivity).
    lia.
Qed.

Lemma show_N_no_nl n : ~ In nl_char (show_N n).
Proof. apply show_uint_no_nl. Qed.

Lemma Number_toString_no_nl x : ~ In nl_char (Number_toString x).
Proof.
  unfold Number_toString.
  destruct (x =? 0)%N; [simpl; intuition discriminate|].
  destruct (Infinity <=? x)%N; [simpl; intuition discriminate|].
  destruct (ts_candidates x) as [|c cs]; [apply show_N_no_nl|].
  destruct (ts_best x c cs) as [s e].
  destruct (s * 10 ^ e <? 10 ^ 21)%N; [apply show_N_no_nl|].
  unfold exp_form. pose proof (show_N_no_nl s) as Hs.
  destruct (show_N s) as [|a rest]; [simpl; tauto|].
  intros H. destruct H as [H|H]; [apply Hs; left; exact H|].
  apply in_app_iff in H as [H|H].
  - destruct rest as [|b rest']; [contradiction|].
    destruct H as [H|H]; [discriminate|]. apply Hs. right. exact H.
  - simpl in H. destruct H as [H|[H|H]]; try discriminate.
    apply (show_N_no_nl _ H).
Qed.

Lemma chapter_lines_no_nl lastFrame idx frame :
  Forall (fun l => ~ In nl_char l) (chapter_lines lastFrame idx frame).
Proof.
  pose proof Number_toString_no_nl as Hs.
  destruct lastFrame; unfold chapter_lines;
    repeat constructor; simpl; intros H;
    repeat (destruct H as [H|H]; [discriminate|]); try contradiction.
  all: exact (Hs _ H).
Qed.

Lemma loop_lines_no_nl lastFrame idx frames :
  Forall (fun l => ~ In nl_char l) (loop_lines lastFrame idx frames).
Proof.
  revert lastFrame idx. induction frames as [|f fs IH]; intros lastFrame idx;
    cbn [loop_lines]; [constructor|].
  apply Forall_app. split; [apply chapter_lines_no_nl|apply IH].
Qed.

Lemma field_values_app tag l1 l2 :
  field_values tag (l1 ++ l2) = field_values tag l1 ++ field_values tag l2.
Proof. unfold field_values. apply flat_map_app. Qed.


Lemma chapter_lines_start lastFrame idx frame :
  plain_number (prev_end lastFrame) ->
  field_values (lit "START=") (chapter_lines lastFrame idx frame) =
  [prev_end lastFrame].
Proof.
  intros [H1 H2].
  destruct lastFrame; cbn [prev_end] in *;
    unfold field_values, field_value, chapter_lines; simpl;
    [rewrite (parseInt_Number_toString _ H1 H2)|]; reflexivity.
Qed.

Lemma chapter_lines_end lastFrame idx frame :
  plain_number (pts_time frame) ->
  field_values (lit "END=") (chapter_lines lastFrame idx frame) =
  [pts_time frame].
Proof.
  intros [H1 H2].
  destruct lastFrame; unfold field_values, field_value, chapter_lines;
    simpl; rewrite (parseInt_Number_toString _ H1 H2); reflexivity.
Qed.

Lemma loop_lines_reparse lastFrame idx frames :
  plain_number (prev_end lastFrame) ->
  Forall (fun f => plain_number (pts_time f)) frames ->
  combine (field_values (lit "START=") (loop_lines lastFrame idx frames))
          (field_values (lit "END=") (loop_lines lastFrame idx frames)) =
  chapter_bounds (prev_end lastFrame) (map pts_time frames).
Proof.
  intros Hl Hf. revert lastFrame idx Hl.
  induction Hf as [|f fs Hf0 _ IH]; intros lastFrame idx Hl; [reflexivity|].
  cbn [loop_lines map chapter_bounds].
  rewrite !field_values_app, chapter_lines_start, chapter_lines_end
    by assumption.
  simpl. f_equal. apply (IH (Some f)). exact Hf0.
Qed.

Lemma chapter_bounds_snd prev ts : map snd (chapter_bounds prev ts) = ts.
Proof.
  revert prev. induction ts as [|t ts IH]; intros prev; simpl; f_equal; auto.
Qed.

Lemma contains_false s p :
  p <> [] -> contains s p = false -> forall i, at_pos s i p = false.
Proof.
  intros Hp H i. unfold contains in H.
  destruct (Nat.le_gt_cases i (List.length s)) as [Hi|Hi].
  - destruct (at_pos s i p) eqn:E; [|reflexivity].
    rewrite <- not_true_iff_false in H. exfalso. apply H.
    apply existsb_exists. exists i. split; [apply in_seq; lia|exact E].
  - unfold at_pos. rewrite skipn_all2 by lia.
    destruct p; [congruence|reflexivity].
Qed.

Lemma chapter_text_pts l1 l2 idx f1 f2 :
  option_map pts_time l1 = option_map pts_time l2 -> pts_time f1 = pts_time f2 ->
  chapter_text l1 idx f1 = chapter_text l2 idx f2.
Proof.
  intros Hl Hf. unfold chapter_text. rewrite Hf.
  destruct l1, l2; simpl in Hl; try discriminate; [|reflexivity].
  injection Hl as ->. reflexivity.
Qed.

Lemma gen_loop_pts fs1 fs2 acc l1 l2 idx :
  map pts_time fs1 = map pts_time fs2 ->
  option_map pts_time l1 = option_map pts_time l2 ->
  gen_loop acc l1 idx fs1 = gen_loop acc l2 idx fs2.
Proof.
  revert fs2 acc l1 l2 idx.
  induction fs1 as [|f1 fs1 IH]; intros [|f2 fs2] acc l1 l2 idx H Hl;
    simpl in H; try discriminate; [reflexivity|].
  injection H as Hf Hs. simpl.
  rewrite (chapter_text_pts l1 l2 idx f1 f2 Hl Hf).
  apply IH; [exact Hs|simpl; congruence].
Qed.

(** * The claims *)

(** C1 (code defect). Feeding two descriptor blocks as two chunks yields two
    key frames, feeding the same text as one chunk yields one: the greedy
    [.*] of [frameRegEx] stretches the first match from the first [[FRAME]]
    to the last [[/FRAME]], so the two blocks are parsed as one whose fields
    are those of the second block. *)
Theorem write_chunking_changes_keyframes :
  option_map keyFrames (write_all collector_new [block1; block2]) =
    Some [mkKF 0 10; mkKF 300 20] /\
  option_map keyFrames (write_all collector_new [block1 ++ block2]) =
    Some [mkKF 300 20].
Proof. split; vm_compute; reflexivity. Qed.

(** C2: with [pkt_pos] before [pts_time] the constructor throws. *)
Lemma KeyFrame_new_pos_before_pts :
  KeyFrame_new (lit "pkt_pos=5
pts_time=3
") = None.
Proof. vm_compute. reflexivity. Qed.

(** C2 (corrected). The constructor extracts both values when the block has
    one [pts_time=] and, after it, one [pkt_pos=], each followed by its
    digits: the key frame holds [parseInt] of the two digit runs. A block
    whose [pkt_pos=] fields all come before its [pts_time=] fields is
    rejected: the order of the fields decides success. *)
Theorem KeyFrame_new_fields :
  (forall pre D1 mid D2 post : text,
    D1 <> [] -> D2 <> [] ->
    Forall (fun c => is_digit c = true) D1 -> Forall (fun c => is_digit c = true) D2 ->
    digit_run mid = 0 -> digit_run post = 0 ->
    List.length (occurrences (fields_text pre D1 mid D2 post) (lit "pts_time=")) = 1 ->
    List.length (occurrences (fields_text pre D1 mid D2 post) (lit "pkt_pos=")) = 1 ->
    KeyFrame_new (fields_text pre D1 mid D2 post) = Some (mkKF (parseInt D1) (parseInt D2))) /\
  (forall s : text,
    (forall i j, at_pos s i (lit "pts_time=") = true -> at_pos s j (lit "pkt_pos=") = true ->
                 j < i) ->
    KeyFrame_new s = None).
Proof.
  split.
  - intros pre D1 mid D2 post HN1 HN2 HD1 HD2 Hm Hp Hop Hoq.
    unfold KeyFrame_new. rewrite frameRegEX_match_fields by assumption. reflexivity.
  - intros s H. unfold KeyFrame_new.
    destruct (frameRegEX_match s) as [r|] eqn:E; [|reflexivity].
    apply frameRegEX_match_order in E as [i [j [Hi [Hj Hij]]]].
    specialize (H i j Hi Hj). lia.
Qed.

Lemma KeyFrame_new_fields_witness :
  KeyFrame_new (fields_text (lit "[FRAME]
key_frame=1
") (lit "0") nl (lit "10") (nl ++ lit "[/FRAME]
")) = Some (mkKF 0 10) /\
  KeyFrame_new (lit "pkt_pos=5
pts_time=3
") = None.
Proof.
  split.
  - apply (proj1 KeyFrame_new_fields); try discriminate; try reflexivity;
      repeat constructor.
  - apply (proj2 KeyFrame_new_fields). intros i j Hi Hj.
    apply at_pos_occurrences in Hi, Hj; try discriminate.
    vm_compute in Hi, Hj. destruct Hi as [<-|[]], Hj as [<-|[]]. lia.
Defined.

(** C3. The frames that [filterFrames] keeps have timestamps each more than
    180 above the previous kept one, hence strictly increasing; they are the
    frames at an increasing list of positions of the input that never
    contains position 0, the first frame. *)
Theorem filterFrames_threshold (kfs : list KeyFrame) :
  Sorted gap (filterFrames kfs) /\
  Sorted (fun a b => (pts_time a < pts_time b)%N) (filterFrames kfs) /\
  exists idx, filterFrames kfs = map (fun j => nth j kfs (mkKF 0 0)) idx /\
              Sorted lt idx /\ ~ In 0 idx.
Proof.
  pose proof (filterFrames_gaps kfs) as Hg.
  split; [exact Hg|]. split.
  - apply (Sorted_weaken gap); [|exact Hg]. unfold gap. intros a b H. lia.
  - exists (selected_positions (map pts_time kfs)).
    destruct (selected_positions_bounds (map pts_time kfs)) as [Hge Hs].
    split; [apply filterFrames_positions|]. split; [exact Hs|].
    intros Hin. rewrite Forall_forall in Hge. apply Hge in Hin. lia.
Qed.

(** C4. The worked example: timestamps [0, 50, 200, 210, 400] (any byte
    offsets) select [200] and [400], rendered as two chapters [0..200] and
    [200..400]. *)
Theorem worked_example (p0 p1 p2 p3 p4 : N) :
  let kfs := [mkKF 0 p0; mkKF 50 p1; mkKF 200 p2; mkKF 210 p3; mkKF 400 p4] in
  filterFrames kfs = [mkKF 200 p2; mkKF 400 p4] /\
  generateChapterMetadata (mkCollection (filterFrames kfs)) = lit ";FFMETADATA1
[CHAPTER]
TIMEBASE=1/1
START=0
END=200
title=Chapter 1
[CHAPTER]
TIMEBASE=1/1
START=200
END=400
title=Chapter 2
" /\
  reparse (generateChapterMetadata (mkCollection (filterFrames kfs))) =
    [(0, 200); (200, 400)]%N.
Proof. intros kfs. split; [|split]; vm_compute; reflexivity. Qed.

(** C5. A sequence of fewer than two key frames selects nothing, and the
    empty selection renders as the header line alone. *)
Theorem short_sequence_header_only (kfs : list KeyFrame) :
  List.length kfs < 2 ->
  filterFrames kfs = [] /\
  generateChapterMetadata (mkCollection (filterFrames kfs)) = lit ";FFMETADATA1" ++ nl /\
  reparse (generateChapterMetadata (mkCollection (filterFrames kfs))) = [].
Proof.
  intros H.
  assert (Hf : filterFrames kfs = []).
  { destruct kfs as [|k [|k' ks]]; simpl in H; try lia; [reflexivity|].
    unfold filterFrames, filter_loop.
    replace (Z.of_N (pts_time k) - Z.of_N (pts_time k) >? 180)%Z with false
      by (symmetry; rewrite Z.gtb_ltb; apply Z.ltb_ge; lia).
    reflexivity. }
  rewrite Hf. split; [reflexivity|]. split; reflexivity.
Qed.

Lemma short_sequence_header_only_witness :
  List.length [mkKF 500 0] < 2 /\
  filterFrames [mkKF 500 0] = [] /\
  generateChapterMetadata (mkCollection (filterFrames [mkKF 500 0])) =
    lit ";FFMETADATA1" ++ nl /\
  reparse (generateChapterMetadata (mkCollection (filterFrames [mkKF 500 0]))) = [].
Proof.
  split; [simpl; lia|]. apply short_sequence_header_only. simpl. lia.
Defined.

(** C6 (corrected). When every boundary timestamp is a Number below 10^21,
    reading the [START]/[END] lines back from the rendered document gives
    one pair per boundary: chapter [i] ends at boundary [i] and starts at
    boundary [i-1], the first at [0]; the ends are the boundaries. *)
Theorem generateChapterMetadata_roundtrip (bs : list KeyFrame) :
  Forall (fun f => plain_number (pts_time f)) bs ->
  reparse (generateChapterMetadata (mkCollection bs)) =
    chapter_bounds 0 (map pts_time bs) /\
  map snd (reparse (generateChapterMetadata (mkCollection bs))) =
    map pts_time bs.
Proof.
  intros Hb.
  assert (H : reparse (generateChapterMetadata (mkCollection bs)) =
              chapter_bounds 0 (map pts_time bs)).
  { unfold generateChapterMetadata, reparse. simpl coll_keyFrames.
    rewrite gen_loop_lines.
    change ((lit ";FFMETADATA1" ++ nl) ++ lines_text (loop_lines None 0 bs))
      with (lines_text (lit ";FFMETADATA1" :: loop_lines None 0 bs)).
    rewrite <- (app_nil_r (lines_text _)), split_nl_lines.
    - rewrite !field_values_app. cbn [split_nl].
      change (field_values ?t (?h :: ?l)) with (field_values t ([h] ++ l)).
      rewrite !field_values_app.
      change (field_values (lit "START=") [lit ";FFMETADATA1"]) with (@nil N).
      change (field_values (lit "END=") [lit ";FFMETADATA1"]) with (@nil N).
      change (field_values (lit "START=") [[]]) with (@nil N).
      change (field_values (lit "END=") [[]]) with (@nil N).
      rewrite !app_nil_r. apply (loop_lines_reparse None); [|exact Hb].
      split; [vm_compute; reflexivity|reflexivity].
    - constructor; [simpl; intuition discriminate|apply loop_lines_no_nl]. }
  split; [exact H|]. rewrite H. apply chapter_bounds_snd.
Qed.

Lemma generateChapterMetadata_roundtrip_witness :
  Forall (fun f => plain_number (pts_time f)) [mkKF 200 0; mkKF 400 0] /\
  reparse (generateChapterMetadata (mkCollection [mkKF 200 0; mkKF 400 0])) =
    chapter_bounds 0 (map pts_time [mkKF 200 0; mkKF 400 0]) /\
  map snd (reparse (generateChapterMetadata (mkCollection [mkKF 200 0; mkKF 400 0]))) =
    map pts_time [mkKF 200 0; mkKF 400 0].
Proof.
  assert (H : Forall (fun f => plain_number (pts_time f)) [mkKF 200 0; mkKF 400 0])
    by (repeat constructor; vm_compute; reflexivity).
  split; [exact H|]. apply generateChapterMetadata_roundtrip. exact H.
Defined.

(** C6: a timestamp read from the 22 digits of 10^21 is written [1e+21], and
    the [END] line reads back as 1, not as the boundary. *)
Lemma generateChapterMetadata_exponent_form :
  let bs := [mkKF (parseInt (lit "1000000000000000000000")) 0] in
  map pts_time bs = [10 ^ 21]%N /\
  generateChapterMetadata (mkCollection bs) = lit ";FFMETADATA1
[CHAPTER]
TIMEBASE=1/1
START=0
END=1e+21
title=Chapter 1
" /\
  reparse (generateChapterMetadata (mkCollection bs)) = [(0, 1)]%N /\
  reparse (generateChapterMetadata (mkCollection bs)) <>
    chapter_bounds 0 (map pts_time bs).
Proof. intros bs. split; [|split; [|split]]; vm_compute; [reflexivity..|discriminate]. Qed.

(** C7. Once the chunks of a stream have been written, [close] fulfils the
    completion promise with the collection of [filterFrames] applied to the
    accumulated key frames. *)
Theorem close_fulfils_filtered (chunks : list text) (c : KeyFrameCollector) :
  write_all collector_new chunks = Some c ->
  completion (close c) = Fulfilled (mkCollection (filterFrames (keyFrames c))).
Proof.
  intros H. apply write_all_completion in H.
  unfold close. simpl. rewrite H. reflexivity.
Qed.

Lemma close_fulfils_filtered_witness :
  write_all collector_new [block1] = Some (mkCollector nl [mkKF 0 10] Pending) /\
  completion (close (mkCollector nl [mkKF 0 10] Pending)) =
    Fulfilled (mkCollection (filterFrames [mkKF 0 10])).
Proof.
  split; [vm_compute; reflexivity|].
  apply (close_fulfils_filtered [block1]). vm_compute. reflexivity.
Defined.

(** C8. When the first match in the buffer is flagged as a key frame and its
    captured text lacks [pts_time=] or [pkt_pos=], [write] throws
    [MalformedRecord]; the buffer keeps the unparsed block and no key frame
    is added. *)
Theorem write_malformed_keyframe (c : KeyFrameCollector) (chunk : text)
  (m : FrameMatch) :
  frameRegEx_match (stringBuffer c ++ chunk) = Some m ->
  m_flag m = "1"%char ->
  contains (m_body m) (lit "pts_time=") = false \/
  contains (m_body m) (lit "pkt_pos=") = false ->
  snd (write c chunk) = Some MalformedRecord /\
  stringBuffer (fst (write c chunk)) = stringBuffer c ++ chunk /\
  keyFrames (fst (write c chunk)) = keyFrames c.
Proof.
  intros Hm Hf Habs.
  assert (Hk : KeyFrame_new (m_body m) = None).
  { unfold KeyFrame_new.
    destruct Habs as [Ha|Ha].
    - rewrite frameRegEX_match_no_pts; [reflexivity|].
      apply contains_false; [discriminate|exact Ha].
    - rewrite frameRegEX_match_no_pos; [reflexivity|].
      apply contains_false; [discriminate|exact Ha]. }
  unfold write. cbn [write_loop]. rewrite Hm, Hf. simpl Ascii.eqb. cbv iota.
  rewrite Hk. repeat split.
Qed.

Lemma write_malformed_keyframe_witness :
  frameRegEx_match (stringBuffer collector_new ++ block_no_pts) =
    Some (mkFM 0 38 (lit "
key_frame=1
pkt_pos=5
") "1"%char) /\
  snd (write collector_new block_no_pts) = Some MalformedRecord /\
  stringBuffer (fst (write collector_new block_no_pts)) = block_no_pts /\
  keyFrames (fst (write collector_new block_no_pts)) = [].
Proof.
  split; [vm_compute; reflexivity|].
  apply (write_malformed_keyframe collector_new block_no_pts
           (mkFM 0 38 (lit "
key_frame=1
pkt_pos=5
") "1"%char)).
  - vm_compute. reflexivity.
  - reflexivity.
  - left. vm_compute. reflexivity.
Defined.

(** C9 (code defect). A complete block flagged [key_frame=0] is discarded
    without an error, and a key frame block without fields raises
    [MalformedRecord]. Sent together in one chunk, the greedy [.*] of
    [frameRegEx] makes one match of the two blocks, flagged by the second
    block's [key_frame=1], and [new KeyFrame] reads the fields of the
    non-key block: its values enter the key frame sequence. *)
Theorem write_non_keyframe_parsed :
  write collector_new block_not_key_fields = (mkCollector nl [] Pending, None) /\
  snd (write collector_new block_key_bare) = Some MalformedRecord /\
  write collector_new (block_not_key_fields ++ block_key_bare) =
    (mkCollector nl [mkKF 5 1] Pending, None).
Proof. split; [|split]; vm_compute; reflexivity. Qed.

(** C10. Two sequences with the same timestamps select the frames at the
    same positions, with the same timestamps, and render the same chapter
    document: [pkt_pos] has no influence. *)
Theorem pkt_pos_irrelevant (l1 l2 : list KeyFrame) :
  map pts_time l1 = map pts_time l2 ->
  exists idx,
    filterFrames l1 = map (fun j => nth j l1 (mkKF 0 0)) idx /\
    filterFrames l2 = map (fun j => nth j l2 (mkKF 0 0)) idx /\
    map pts_time (filterFrames l1) = map pts_time (filterFrames l2) /\
    generateChapterMetadata (mkCollection (filterFrames l1)) =
    generateChapterMetadata (mkCollection (filterFrames l2)).
Proof.
  intros H. exists (selected_positions (map pts_time l1)).
  assert (H1 := filterFrames_positions l1 (mkKF 0 0)).
  assert (H2 := filterFrames_positions l2 (mkKF 0 0)).
  rewrite <- H in H2.
  assert (Hp : map pts_time (filterFrames l1) = map pts_time (filterFrames l2)).
  { rewrite H1, H2, !map_map. apply map_ext. intros j.
    rewrite <- !(map_nth pts_time), H. reflexivity. }
  split; [exact H1|]. split; [exact H2|]. split; [exact Hp|].
  unfold generateChapterMetadata. simpl. apply gen_loop_pts; [exact Hp|reflexivity].
Qed.

Lemma pkt_pos_irrelevant_witness :
  map pts_time [mkKF 0 1; mkKF 200 2] = map pts_time [mkKF 0 9; mkKF 200 7] /\
  exists idx,
    filterFrames [mkKF 0 1; mkKF 200 2] =
      map (fun j => nth j [mkKF 0 1; mkKF 200 2] (mkKF 0 0)) idx /\
    filterFrames [mkKF 0 9; mkKF 200 7] =
      map (fun j => nth j [mkKF 0 9; mkKF 200 7] (mkKF 0 0)) idx /\
    map pts_time (filterFrames [mkKF 0 1; mkKF 200 2]) =
      map pts_time (filterFrames [mkKF 0 9; mkKF 200 7]) /\
    generateChapterMetadata (mkCollection (filterFrames [mkKF 0 1; mkKF 200 2])) =
    generateChapterMetadata (mkCollection (filterFrames [mkKF 0 9; mkKF 200 7])).
Proof.
  split; [reflexivity|]. apply pkt_pos_irrelevant. reflexivity.
Defined.

(** * Further properties of the code *)

Lemma write_loop_appends fuel buf kfs b k e :
  write_loop fuel buf kfs = (b, k, e) -> exists suf, k = kfs ++ suf.
Proof.
  revert buf kfs. induction fuel as [|fuel IH]; intros buf kfs H; simpl in H.
  - injection H as _ <- _. exists []. rewrite app_nil_r. reflexivity.
  - destruct (frameRegEx_match buf) as [m|].
    + destruct (Ascii.eqb (m_flag m) "1"%char).
      * destruct (KeyFrame_new (m_body m)) as [kf|].
        -- destruct (IH _ _ H) as [suf ->]. exists (kf :: suf).
           rewrite <- app_assoc. reflexivity.
        -- injection H as _ <- _. exists []. rewrite app_nil_r. reflexivity.
      * exact (IH _ _ H).
    + injection H as _ <- _. exists []. rewrite app_nil_r. reflexivity.
Qed.

(** [write] only appends to the key frame sequence, also when it throws. *)
Theorem write_appends_keyframes (c : KeyFrameCollector) (chunk : text) :
  exists suf, keyFrames (fst (write c chunk)) = keyFrames c ++ suf.
Proof.
  unfold write. destruct (write_loop _ _ _) as [[b k] e] eqn:W.
  exact (write_loop_appends _ _ _ _ _ _ W).
Qed.

Lemma write_loop_drains fuel buf kfs b k :
  List.length buf < fuel ->
  write_loop fuel buf kfs = (b, k, None) -> frameRegEx_match b = None.
Proof.
  revert buf kfs. induction fuel as [|fuel IH]; intros buf kfs Hl H; [lia|].
  simpl in H. destruct (frameRegEx_match buf) as [m|] eqn:Hm.
  - pose proof (remove_match_shorter _ _ Hm) as Hs.
    destruct (Ascii.eqb (m_flag m) "1"%char).
    + destruct (KeyFrame_new (m_body m)); [|discriminate].
      eapply IH; [|exact H]. lia.
    + eapply IH; [|exact H]. lia.
  - injection H as <- _. exact Hm.
Qed.

(** A [write] that does not throw leaves no complete block in the buffer. *)
Theorem write_leaves_no_match (c : KeyFrameCollector) (chunk : text) :
  snd (write c chunk) = None ->
  frameRegEx_match (stringBuffer (fst (write c chunk))) = None.
Proof.
  unfold write. destruct (write_loop _ _ _) as [[b k] e] eqn:W. simpl.
  intros ->. eapply write_loop_drains; [|exact W]. lia.
Qed.

Lemma write_leaves_no_match_witness :
  snd (write collector_new (block1 ++ block_not_key)) = None /\
  frameRegEx_match (stringBuffer (fst (write collector_new (block1 ++ block_not_key))))
    = None.
Proof.
  assert (H : snd (write collector_new (block1 ++ block_not_key)) = None)
    by (vm_compute; reflexivity).
  split; [exact H|]. apply write_leaves_no_match. exact H.
Defined.

Lemma frameRegEx_match_no_close s :
  contains s (lit "[/FRAME]") = false -> frameRegEx_match s = None.
Proof.
  intros H0. pose proof (contains_false s (lit "[/FRAME]") ltac:(discriminate) H0) as H.
  unfold frameRegEx_match. apply up_none. intros j _. cbv beta zeta.
  destruct (at_pos s j _); [|reflexivity].
  apply down_none. intros i _.
  destruct (at_pos s (j + 7 + i) _); [|reflexivity].
  destruct (nth_error _ _); [|reflexivity].
  destruct (is_digit _); [|reflexivity].
  apply down_none. intros l _. rewrite H. reflexivity.
Qed.

(** Until a closing [[/FRAME]] marker is in the buffer, [write] only
    appends the chunk to the buffer. *)
Theorem write_buffers_incomplete (c : KeyFrameCollector) (chunk : text) :
  contains (stringBuffer c ++ chunk) (lit "[/FRAME]") = false ->
  write c chunk =
    (mkCollector (stringBuffer c ++ chunk) (keyFrames c) (completion c), None).
Proof.
  intros H. unfold write. cbn [write_loop].
  rewrite (frameRegEx_match_no_close _ H). reflexivity.
Qed.

Lemma write_buffers_incomplete_witness :
  contains (stringBuffer collector_new ++ lit "[FRAME]
key_frame=1
pts_time=3") (lit "[/FRAME]") = false /\
  write collector_new (lit "[FRAME]
key_frame=1
pts_time=3") =
    (mkCollector (lit "[FRAME]
key_frame=1
pts_time=3") [] Pending, None).
Proof.
  assert (H : contains (stringBuffer collector_new ++ lit "[FRAME]
key_frame=1
pts_time=3") (lit "[/FRAME]") = false) by (vm_compute; reflexivity).
  split; [exact H|]. apply (write_buffers_incomplete collector_new _ H).
Defined.

Lemma prefixb_split p l : prefixb p l = true -> l = p ++ skipn (List.length p) l.
Proof.
  revert l. induction p as [|c p IH]; intros [|d l] H; simpl in *;
    try discriminate; auto.
  apply andb_prop in H as [Hc H]. apply Ascii.eqb_eq in Hc. subst.
  f_equal. apply IH. exact H.
Qed.

Lemma at_pos_split s i p :
  at_pos s i p = true -> skipn i s = p ++ skipn (i + List.length p) s.
Proof.
  unfold at_pos. intros H. apply prefixb_split in H. rewrite H at 1.
  rewrite skipn_skipn, Nat.add_comm. reflexivity.
Qed.

Lemma skipn_nth_error (s : text) k d :
  nth_error s k = Some d -> skipn k s = d :: skipn (S k) s.
Proof.
  revert s. induction k as [|k IH]; intros [|c s] H; simpl in *;
    try discriminate.
  - injection H as ->. reflexivity.
  - apply IH. exact H.
Qed.

(** What [replace] cuts out: a match of [frameRegEx] is the marker
    [[FRAME]], the captured body and the marker [[/FRAME]]; removing it
    joins the text before and after; the flag is a digit that follows
    [key_frame=] inside the body. *)
Theorem frameRegEx_match_shape (s : text) (m : FrameMatch) :
  frameRegEx_match s = Some m ->
  exists pre post,
    s = pre ++ lit "[FRAME]" ++ m_body m ++ lit "[/FRAME]" ++ post /\
    remove_match s m = pre ++ post /\
    is_digit (m_flag m) = true /\
    contains (m_body m) (lit "key_frame=" ++ [m_flag m]) = true.
Proof.
  unfold frameRegEx_match. intros H.
  apply up_inv in H as [st [_ H]]. cbv beta zeta in H.
  destruct (at_pos s st (lit "[FRAME]")) eqn:Ho; [|discriminate].
  apply down_inv in H as [l1 [_ H]].
  destruct (at_pos s (st + 7 + l1) (lit "key_frame=")) eqn:Hk; [|discriminate].
  destruct (nth_error s (st + 7 + l1 + 10)) as [d|] eqn:Hd; [|discriminate].
  destruct (is_digit d) eqn:Hdig; [|discriminate].
  apply down_inv in H as [l2 [_ H]].
  destruct (at_pos s (st + 7 + l1 + 11 + l2) (lit "[/FRAME]")) eqn:Hc;
    [|discriminate].
  injection H as <-. cbn [m_body m_flag m_start m_end].
  pose proof (at_pos_length s _ (lit "[/FRAME]") ltac:(discriminate) Hc) as Hq.
  apply at_pos_split in Ho, Hk, Hc.
  change (List.length (lit "[FRAME]")) with 7 in Ho, Hq.
  change (List.length (lit "key_frame=")) with 10 in Hk.
  change (List.length (lit "[/FRAME]")) with 8 in Hc, Hq.
  set (b := st + 7) in *. set (q := b + l1 + 11 + l2) in *.
  exists (firstn st s), (skipn (q + 8) s).
  split; [|split; [reflexivity|split; [exact Hdig|]]].
  - rewrite <- (firstn_skipn st s) at 1. f_equal. rewrite Ho. f_equal.
    fold b. rewrite <- (firstn_skipn (q - b) (skipn b s)) at 1. f_equal.
    rewrite skipn_skipn. replace (q - b + b) with q by (unfold q, b; lia).
    exact Hc.
  - unfold contains. apply existsb_exists. exists l1. split.
    + apply in_seq. rewrite length_firstn, length_skipn. unfold q, b in *. lia.
    + unfold at_pos. rewrite skipn_firstn_comm, skipn_skipn.
      replace (l1 + b) with (b + l1) by lia.
      rewrite Hk, (skipn_nth_error _ _ _ Hd).
      replace (q - b - l1) with (S (S (S (S (S (S (S (S (S (S (S l2)))))))))))
        by (unfold q, b; lia).
      simpl. rewrite Ascii.eqb_refl. reflexivity.
Qed.

Lemma frameRegEx_match_shape_witness :
  frameRegEx_match block_not_key = Some (mkFM 0 28 (lit "
key_frame=0
") "0"%char) /\
  exists pre post,
    block_not_key = pre ++ lit "[FRAME]" ++ lit "
key_frame=0
" ++ lit "[/FRAME]" ++ post /\
    remove_match block_not_key (mkFM 0 28 (lit "
key_frame=0
") "0"%char) = pre ++ post /\
    is_digit "0"%char = true /\
    contains (lit "
key_frame=0
") (lit "key_frame=" ++ ["0"%char]) = true.
Proof.
  assert (H : frameRegEx_match block_not_key = Some (mkFM 0 28 (lit "
key_frame=0
") "0"%char)) by (vm_compute; reflexivity).
  split; [exact H|]. exact (frameRegEx_match_shape _ _ H).
Defined.

Lemma filterFrames_cons k ks : filterFrames (k :: ks) = filter_loop k ks.
Proof.
  unfold filterFrames. cbn [filter_loop].
  replace (Z.of_N (pts_time k) - Z.of_N (pts_time k) >? 180)%Z with false
    by (symmetry; rewrite Z.gtb_ltb; apply Z.ltb_ge; lia).
  reflexivity.
Qed.

Lemma filter_loop_length lastFrame l :
  List.length (filter_loop lastFrame l) <= List.length l.
Proof.
  revert lastFrame. induction l as [|f l IH]; intros lastFrame; simpl; [lia|].
  destruct (_ >? _)%Z; simpl; [specialize (IH f)|specialize (IH lastFrame)]; lia.
Qed.

(** On a non-empty sequence [filterFrames] drops at least one frame. *)
Theorem filterFrames_shorter (kfs : list KeyFrame) :
  kfs <> [] -> List.length (filterFrames kfs) < List.length kfs.
Proof.
  destruct kfs as [|k ks]; [congruence|]. intros _.
  rewrite filterFrames_cons. pose proof (filter_loop_length k ks). simpl. lia.
Qed.

Lemma filterFrames_shorter_witness :
  [mkKF 0 0; mkKF 500 1] <> [] /\
  List.length (filterFrames [mkKF 0 0; mkKF 500 1]) < List.length [mkKF 0 0; mkKF 500 1].
Proof. split; [discriminate|]. apply filterFrames_shorter. discriminate. Defined.

(** Every selected frame is more than 180 after the first frame. *)
Theorem filterFrames_after_first (k : KeyFrame) (ks : list KeyFrame) :
  Forall (fun f => Z.of_N (pts_time k) + 180 < Z.of_N (pts_time f))%Z
    (filterFrames (k :: ks)).
Proof.
  rewrite filterFrames_cons. destruct (filter_loop_gaps k ks) as [Hs Hh].
  apply (Sorted_extends (R := gap)).
  - intros a b c H1 H2. unfold gap in *. lia.
  - constructor; assumption.
Qed.

Lemma filter_loop_sorted k ks : Sorted gap (k :: ks) -> filter_loop k ks = ks.
Proof.
  revert k. induction ks as [|f ks IH]; intros k H; [reflexivity|].
  inversion H as [|? ? Hs Hh]; subst. inversion Hh as [|? ? Hg]; subst.
  simpl. unfold gap in Hg.
  replace (Z.of_N (pts_time f) - Z.of_N (pts_time k) >? 180)%Z with true
    by (symmetry; rewrite Z.gtb_ltb; apply Z.ltb_lt; lia).
  f_equal. apply IH. exact Hs.
Qed.

(** Selecting again from a selection drops only its first frame. *)
Theorem filterFrames_twice (kfs : list KeyFrame) :
  filterFrames (filterFrames kfs) = tl (filterFrames kfs).
Proof.
  pose proof (filterFrames_gaps kfs) as Hs.
  destruct (filterFrames kfs) as [|k ks]; [reflexivity|].
  rewrite filterFrames_cons. apply filter_loop_sorted. exact Hs.
Qed.

Lemma generate_split_nl (bs : list KeyFrame) :
  split_nl (generateChapterMetadata (mkCollection bs)) =
  lit ";FFMETADATA1" :: loop_lines None 0 bs ++ [[]].
Proof.
  unfold generateChapterMetadata. simpl coll_keyFrames. rewrite gen_loop_lines.
  change ((lit ";FFMETADATA1" ++ nl) ++ lines_text (loop_lines None 0 bs))
    with (lines_text (lit ";FFMETADATA1" :: loop_lines None 0 bs)).
  rewrite <- (app_nil_r (lines_text _)), split_nl_lines; [reflexivity|].
  constructor; [simpl; intuition discriminate|apply loop_lines_no_nl].
Qed.

Lemma chapter_lines_title lastFrame idx frame :
  (lastFrame = None -> idx = 0) -> (N.of_nat (idx + 1) < 2 ^ 53)%N ->
  field_values (lit "title=Chapter ") (chapter_lines lastFrame idx frame) =
  [N.of_nat (idx + 1)].
Proof.
  intros H Hs. destruct lastFrame.
  - unfold field_values, field_value, chapter_lines. simpl.
    rewrite parseInt_Number_toString; [reflexivity|apply Number_of_N_small, Hs|].
    eapply N.lt_trans; [exact Hs|reflexivity].
  - rewrite (H eq_refl). reflexivity.
Qed.

Lemma chapter_lines_marker lastFrame idx frame :
  List.length (field_values (lit "[CHAPTER]") (chapter_lines lastFrame idx frame)) = 1.
Proof. destruct lastFrame; reflexivity. Qed.

Lemma loop_lines_titles lastFrame idx frames :
  (lastFrame = None -> idx = 0) ->
  (N.of_nat (idx + List.length frames) < 2 ^ 53)%N ->
  field_values (lit "title=Chapter ") (loop_lines lastFrame idx frames) =
    map (fun i => N.of_nat (i + 1)) (seq idx (List.length frames)) /\
  List.length (field_values (lit "[CHAPTER]") (loop_lines lastFrame idx frames)) =
    List.length frames.
Proof.
  revert lastFrame idx. induction frames as [|f fs IH]; intros lastFrame idx H Hn;
    [split; reflexivity|].
  cbn [loop_lines List.length seq map] in *.
  rewrite !field_values_app, length_app, chapter_lines_title, chapter_lines_marker;
    [|exact H|eapply N.le_lt_trans; [|exact Hn]; lia].
  destruct (IH (Some f) (S idx) ltac:(intros Hc; discriminate)) as [H1 H2];
    [eapply N.le_lt_trans; [|exact Hn]; lia|].
  rewrite H1, H2. split; reflexivity.
Qed.

(** The rendered document has one [[CHAPTER]] record per boundary, and the
    records are titled [Chapter 1], [Chapter 2], ... in order; a JavaScript
    array has fewer than 2^32 elements. *)
Theorem generateChapterMetadata_titles (bs : list KeyFrame) :
  (N.of_nat (List.length bs) < 2 ^ 32)%N ->
  let lines := split_nl (generateChapterMetadata (mkCollection bs)) in
  field_values (lit "title=Chapter ") lines =
    map (fun i => N.of_nat (i + 1)) (seq 0 (List.length bs)) /\
  List.length (field_values (lit "[CHAPTER]") lines) = List.length bs.
Proof.
  intros Hlen lines. unfold lines. rewrite generate_split_nl.
  destruct (loop_lines_titles None 0 bs (fun _ => eq_refl)) as [H1 H2];
    [eapply N.lt_trans; [exact Hlen|reflexivity]|].
  change (lit ";FFMETADATA1" :: loop_lines None 0 bs ++ [[]])
    with ([lit ";FFMETADATA1"] ++ loop_lines None 0 bs ++ [[]]).
  rewrite !field_values_app, H1, !length_app, H2. simpl.
  rewrite app_nil_r. split; [reflexivity|lia].
Qed.

Lemma generateChapterMetadata_titles_witness :
  (N.of_nat (List.length [mkKF 200 0; mkKF 400 0; mkKF 700 0]) < 2 ^ 32)%N /\
  field_values (lit "title=Chapter ")
    (split_nl (generateChapterMetadata (mkCollection [mkKF 200 0; mkKF 400 0; mkKF 700 0])))
    = [1; 2; 3]%N.
Proof.
  split; [reflexivity|].
  exact (proj1 (generateChapterMetadata_titles [mkKF 200 0; mkKF 400 0; mkKF 700 0]
                  ltac:(reflexivity))).
Defined.

(** ** The command line driver *)


Lemma expand_replacement_plain rep matched before after :
  ~ In "$"%char rep -> expand_replacement rep matched before after = rep.
Proof.
  induction rep as [|c rep IH]; intros H; [reflexivity|]. simpl.
  replace (Ascii.eqb c "$"%char) with false.
  - f_equal. apply IH. intros Hi. apply H. right. exact Hi.
  - symmetry. apply Ascii.eqb_neq. intros ->. apply H. left. reflexivity.
Qed.

(** A path found under the source directory is mirrored under the
    destination directory, when the destination path has no [$] (which
    [replace] would interpret). *)
Theorem destPath_mirrors (sourceDir destDir rel : text) :
  ~ In "$"%char destDir ->
  destPath sourceDir destDir (sourceDir ++ rel) = destDir ++ rel.
Proof.
  intros H. unfold destPath, replace_first.
  rewrite (up_first _ 0 _ 0); [|unfold at_pos; simpl skipn; rewrite prefixb_app; reflexivity].
  rewrite expand_replacement_plain by exact H. simpl.
  rewrite skipn_app, skipn_all, Nat.sub_diag. reflexivity.
Qed.

Lemma destPath_mirrors_witness :
  ~ In "$"%char (lit "/b/out") /\
  destPath (lit "/a/src") (lit "/b/out") (lit "/a/src" ++ lit "/m.mkv") =
    lit "/b/out" ++ lit "/m.mkv".
Proof.
  assert (H : ~ In "$"%char (lit "/b/out")) by (simpl; intuition discriminate).
  split; [exact H|]. apply destPath_mirrors. exact H.
Defined.

(** The file filter keeps exactly the paths whose last three characters are
    [mp4] or [mkv] in any letter case. *)
Theorem media_filter_spec (path : text) :
  media_filter path = true <->
  3 <= List.length path /\
  (prefix_ci (lit "mp4") (skipn (List.length path - 3) path)
   || prefix_ci (lit "mkv") (skipn (List.length path - 3) path)) = true.
Proof.
  unfold media_filter. split.
  - intros H. destruct (up _ _ _) eqn:U; [|discriminate].
    apply up_inv in U as [j [_ Hj]].
    destruct (prefix_ci (lit "mp4") (skipn j path) && (j + 3 =? List.length path))
      eqn:E1.
    + apply andb_prop in E1 as [E1 E2]. apply Nat.eqb_eq in E2.
      replace (List.length path - 3) with j by lia. rewrite E1. split; [lia|reflexivity].
    + destruct (prefix_ci (lit "mkv") (skipn j path) && (j + 3 =? List.length path))
        eqn:E3; [|discriminate].
      apply andb_prop in E3 as [E3 E4]. apply Nat.eqb_eq in E4.
      replace (List.length path - 3) with j by lia. rewrite E3, orb_true_r.
      split; [lia|reflexivity].
  - intros [Hl H].
    destruct (up _ _ _) eqn:U; [reflexivity|exfalso].
    refine (up_found _ 0 (List.length path) (List.length path - 3) _ _ U); [lia|].
    cbv beta.
    replace (List.length path - 3 + 3 =? List.length path) with true
      by (symmetry; apply Nat.eqb_eq; lia).
    apply orb_prop in H as [H|H]; rewrite H.
    + discriminate.
    + destruct (prefix_ci (lit "mp4") (skipn (List.length path - 3) path));
        discriminate.
Qed.

(** ** The [KeyFrame] parser on a rendered record *)


Lemma at_pos_head s i c p : at_pos s i (c :: p) = true -> nth_error s i = Some c.
Proof.
  unfold at_pos. rewrite <- hd_error_skipn.
  destruct (skipn i s) as [|d r]; simpl; [discriminate|].
  intros H. apply andb_prop in H as [H _]. apply Ascii.eqb_eq in H. subst. reflexivity.
Qed.

Lemma show_uint_digits d : Forall (fun c => is_digit c = true) (show_uint d).
Proof. induction d; simpl; constructor; auto. Qed.

Lemma show_N_nonempty n : show_N n <> [].
Proof.
  unfold show_N. intros H. pose proof (read_show_uint (N.to_uint n)) as E.
  rewrite H in E. simpl in E. pose proof (DecimalN.Unsigned.of_to n) as F.
  rewrite <- E in F. simpl in F. subst n. discriminate E.
Qed.

Lemma digit_run_app (ds : text) c r :
  Forall (fun c => is_digit c = true) ds -> is_digit c = false ->
  digit_run (ds ++ c :: r) = List.length ds.
Proof.
  intros Hd Hc. induction Hd as [|d ds Hd _ IH]; simpl.
  - rewrite Hc. reflexivity.
  - rewrite Hd, IH. reflexivity.
Qed.


Lemma digits_no_p (ds : text) j :
  Forall (fun c => is_digit c = true) ds -> nth_error ds j <> Some "p"%char.
Proof.
  intros Hd H. apply nth_error_In in H. rewrite Forall_forall in Hd.
  apply Hd in H. discriminate H.
Qed.

Section RenderedRecord.

Variables (D1 D2 : text).
Hypothesis (HD1 : Forall (fun c => is_digit c = true) D1)
           (HD2 : Forall (fun c => is_digit c = true) D2)
           (HN1 : D1 <> []) (HN2 : D2 <> []).

(** A record [pts_time=D1\npkt_pos=D2\n]. *)
Let rec_text := lit "pts_time=" ++ D1 ++ nl ++ lit "pkt_pos=" ++ D2 ++ nl.
Let qpos := 9 + List.length D1 + 1.

Lemma rec_p_positions i :
  nth_error rec_text i = Some "p"%char -> i = 0 \/ i = qpos \/ i = qpos + 4.
Proof.
  unfold rec_text, qpos. intros H.
  destruct (Nat.lt_ge_cases i 9) as [Hi|Hi].
  - rewrite nth_error_app1 in H by (simpl; lia).
    do 9 (destruct i as [|i]; [simpl in H; try discriminate; lia|]). lia.
  - rewrite nth_error_app2 in H by (simpl; lia). simpl List.length in H.
    destruct (Nat.lt_ge_cases (i - 9) (List.length D1)) as [Hj|Hj].
    + rewrite nth_error_app1 in H by lia. exfalso. exact (digits_no_p _ _ HD1 H).
    + rewrite nth_error_app2 in H by lia.
      remember (i - 9 - List.length D1) as j eqn:Ej.
      do 9 (destruct j as [|j];
            [simpl in H; try discriminate; lia|]).
      simpl in H.
      destruct (Nat.lt_ge_cases j (List.length D2)) as [Hk|Hk].
      * rewrite nth_error_app1 in H by lia. exfalso. exact (digits_no_p _ _ HD2 H).
      * rewrite nth_error_app2 in H by lia.
        destruct (j - List.length D2) as [|[]]; simpl in H; discriminate.
Qed.

Lemma rec_skipn_q k :
  skipn (qpos + k) rec_text = skipn k (lit "pkt_pos=" ++ D2 ++ nl).
Proof.
  unfold rec_text, qpos.
  replace (lit "pts_time=" ++ D1 ++ nl ++ lit "pkt_pos=" ++ D2 ++ nl)
    with ((lit "pts_time=" ++ D1 ++ nl) ++ lit "pkt_pos=" ++ D2 ++ nl)
    by (rewrite <- !app_assoc; reflexivity).
  replace (9 + List.length D1 + 1 + k)
    with (List.length (lit "pts_time=" ++ D1 ++ nl) + k)
    by (rewrite !length_app; simpl; lia).
  apply skipn_app_length.
Qed.

Lemma rec_match : frameRegEX_match rec_text = Some (D1, D2).
Proof.
  assert (Hlen : List.length rec_text = qpos + 8 + List.length D2 + 1)
    by (unfold rec_text, qpos; rewrite !length_app; simpl; lia).
  assert (Hs9 : skipn 9 rec_text = D1 ++ ascii_of_nat 10 :: lit "pkt_pos=" ++ D2 ++ nl)
    by reflexivity.
  assert (Hq8 : skipn (qpos + 8) rec_text = D2 ++ ascii_of_nat 10 :: [])
    by (rewrite rec_skipn_q; reflexivity).
  assert (HL1 : exists r1, List.length D1 = S r1)
    by (destruct D1; [contradiction|eexists; reflexivity]).
  assert (HL2 : exists r2, List.length D2 = S r2)
    by (destruct D2; [contradiction|eexists; reflexivity]).
  destruct HL1 as [r1 EL1], HL2 as [r2 EL2].
  unfold frameRegEX_match. rewrite (up_first _ 0 _ (D1, D2)); [reflexivity|].
  cbv beta zeta.
  apply (down_top _ _ 0); [lia| |].
  - intros i Hi. cbv beta.
    destruct (at_pos rec_text (0 + i) (lit "pts_time=")) eqn:E; [|reflexivity].
    exfalso.
    pose proof (at_pos_head _ _ "p"%char (lit "ts_time=") E) as Hp.
    apply rec_p_positions in Hp as [H0|[H0|H0]]; [lia| |];
      unfold at_pos in E; cbn [Nat.add] in H0, E; rewrite H0 in E;
      [rewrite <- (Nat.add_0_r qpos) in E|]; rewrite rec_skipn_q in E;
      discriminate E.
  - cbv beta. rewrite !Nat.add_0_l.
    assert (Hp0 : at_pos rec_text 0 (lit "pts_time=") = true)
      by (unfold at_pos, rec_text; rewrite skipn_0; apply prefixb_app).
    rewrite Hp0, Hs9, digit_run_app, EL1 by (exact HD1 || reflexivity).
    apply (down_top _ _ r1); [lia|intros; lia|]. cbv beta.
    apply (down_top _ _ 1); [rewrite Hlen; unfold qpos; lia| |].
    + intros l2 Hl2.
      destruct (at_pos rec_text (9 + S r1 + l2) (lit "pkt_pos=")) eqn:E;
        [|reflexivity].
      exfalso.
      pose proof (at_pos_head _ _ "p"%char (lit "kt_pos=") E) as Hp.
      apply rec_p_positions in Hp as [H0|[H0|H0]]; unfold qpos in H0; try lia.
      replace (9 + S r1 + l2) with (qpos + 4) in E by (unfold qpos; lia).
      unfold at_pos in E. rewrite rec_skipn_q in E. discriminate E.
    + replace (9 + S r1 + 1) with (qpos + 0) by (unfold qpos; lia).
      assert (Hq : at_pos rec_text (qpos + 0) (lit "pkt_pos=") = true)
        by (unfold at_pos; rewrite rec_skipn_q; apply prefixb_app).
      rewrite Hq, Nat.add_0_r, Hq8, digit_run_app, EL2 by (exact HD2 || reflexivity).
      apply (down_top _ _ r2); [lia|intros; lia|].
      rewrite <- EL1, <- EL2, !firstn_app_exact. reflexivity.
Qed.

End RenderedRecord.

(** KeyFrame constructor, parse of a rendered record: from a record that
    holds the line [pts_time=t] followed by the line [pkt_pos=p], both
    written in decimal, the constructor reads back the Number values of [t]
    and [p]: the numbers themselves below 2^53 ([Number_of_N_small]),
    rounded to binary64 above. *)
Theorem KeyFrame_new_rendered (t p : N) :
  KeyFrame_new (lit "pts_time=" ++ show_N t ++ nl ++ lit "pkt_pos=" ++ show_N p ++ nl)
  = Some (mkKF (Number_of_N t) (Number_of_N p)).
Proof.
  unfold KeyFrame_new.
  rewrite (rec_match (show_N t) (show_N p) (show_uint_digits _) (show_uint_digits _)
             (show_N_nonempty t) (show_N_nonempty p)).
  rewrite !parseInt_show_N. reflexivity.
Qed.
